(** * The 3D portfolio city: layout, roads, obstacles and the drive loop

    A shallow embedding of [src/components/ProjectGallery3D.jsx]: the
    cluster layout generator ([generateClusterPositions]), the city
    builder ([cityData]), the road network builder ([roadSegments]), the
    obstacle and tree deriver ([obstacleCenters]) and the per-frame
    callback of [CarControls].

    JavaScript numbers are modelled by [JS.num]: exact real arithmetic on
    the finite values, together with the three special values
    [Infinity], [-Infinity] and [NaN] and their propagation rules.
    Rounding, overflow and the sign of zero are not modelled; a decimal
    literal of the source is written as the fraction it denotes
    ([0.98] as [98/100]). *)

From Stdlib Require Import String ZArith Reals Lra Lia List Bool Arith.
Import ListNotations.

(* ================================================================= *)
(** ** JavaScript numbers *)

Module JS.

Open Scope R_scope.

Inductive num : Type :=
  | Fin (r : R)
  | PInf
  | NInf
  | NaN.

Definition Rltb (a b : R) : bool := if Rlt_dec a b then true else false.
Definition Rleb (a b : R) : bool := if Rle_dec a b then true else false.
Definition Reqb (a b : R) : bool := if Req_dec_T a b then true else false.

(** Sign of a real: [Lt] negative, [Eq] zero, [Gt] positive. *)
Definition Rsign (r : R) : comparison :=
  if Rltb r 0 then Lt else if Rltb 0 r then Gt else Eq.

(** Sign of a number; [None] for [NaN]. *)
Definition sign (a : num) : option comparison :=
  match a with
  | Fin r => Some (Rsign r)
  | PInf => Some Gt
  | NInf => Some Lt
  | NaN => None
  end.

Definition neg (a : num) : num :=
  match a with
  | Fin r => Fin (- r)
  | PInf => NInf
  | NInf => PInf
  | NaN => NaN
  end.

(** [a + b] *)
Definition add (a b : num) : num :=
  match a, b with
  | Fin x, Fin y => Fin (x + y)
  | NaN, _ | _, NaN => NaN
  | PInf, NInf | NInf, PInf => NaN
  | PInf, _ | _, PInf => PInf
  | NInf, _ | _, NInf => NInf
  end.

(** [a - b] *)
Definition sub (a b : num) : num := add a (neg b).

(** [a * b]: an infinity times zero is [NaN]. *)
Definition mul (a b : num) : num :=
  match a, b with
  | Fin x, Fin y => Fin (x * y)
  | _, _ =>
      match sign a, sign b with
      | Some Eq, _ | _, Some Eq => NaN
      | Some Gt, Some Gt | Some Lt, Some Lt => PInf
      | Some _, Some _ => NInf
      | _, _ => NaN
      end
  end.

(** [a / b]: [0 / 0] and [Infinity / Infinity] are [NaN]; a non-zero
    number over zero is an infinity (the zero being taken as [+0]). *)
Definition div (a b : num) : num :=
  match a, b with
  | Fin x, Fin y =>
      if Reqb y 0 then
        match Rsign x with
        | Eq => NaN
        | Gt => PInf
        | Lt => NInf
        end
      else Fin (x / y)
  | Fin _, PInf | Fin _, NInf => Fin 0
  | PInf, Fin y => if Rltb y 0 then NInf else PInf
  | NInf, Fin y => if Rltb y 0 then PInf else NInf
  | _, _ => NaN
  end.

(** [a < b]: every comparison with [NaN] is false. *)
Definition ltb (a b : num) : bool :=
  match a, b with
  | Fin x, Fin y => Rltb x y
  | NaN, _ | _, NaN => false
  | NInf, NInf | PInf, _ | _, NInf => false
  | NInf, _ | _, PInf => true
  end.

(** [a > b] *)
Definition gtb (a b : num) : bool := ltb b a.

(** [a <= b] *)
Definition leb (a b : num) : bool :=
  match a, b with
  | Fin x, Fin y => Rleb x y
  | NaN, _ | _, NaN => false
  | NInf, _ | _, PInf => true
  | PInf, _ | _, NInf => false
  end.

Definition is_nan (a : num) : bool :=
  match a with NaN => true | _ => false end.

(** [Math.min(a, b)] and [Math.max(a, b)]: [NaN] if an argument is. *)
Definition min (a b : num) : num :=
  if is_nan a || is_nan b then NaN else if ltb b a then b else a.

Definition max (a b : num) : num :=
  if is_nan a || is_nan b then NaN else if ltb a b then b else a.

(** [Math.abs(a)] *)
Definition abs (a : num) : num :=
  match a with
  | Fin r => Fin (Rabs r)
  | PInf | NInf => PInf
  | NaN => NaN
  end.

(** [Math.sqrt(a)] *)
Definition sqrt (a : num) : num :=
  match a with
  | Fin r => if Rltb r 0 then NaN else Fin (R_sqrt.sqrt r)
  | PInf => PInf
  | NInf | NaN => NaN
  end.

(** [Math.hypot(a, b)]: an infinite argument wins over [NaN]. *)
Definition hypot (a b : num) : num :=
  match a, b with
  | Fin x, Fin y => Fin (R_sqrt.sqrt (x * x + y * y))
  | PInf, _ | NInf, _ | _, PInf | _, NInf => PInf
  | _, _ => NaN
  end.

(** [Math.cos(a)] and [Math.sin(a)] *)
Definition cos (a : num) : num :=
  match a with Fin r => Fin (Rtrigo_def.cos r) | _ => NaN end.

Definition sin (a : num) : num :=
  match a with Fin r => Fin (Rtrigo_def.sin r) | _ => NaN end.

(** [Math.PI] *)
Definition PI : num := Fin Rtrigo1.PI.

End JS.

Import JS.
Open Scope R_scope.

(* ================================================================= *)
(** ** [Math.random]: a state monad over the sequence of draws *)

(** [rnd k] is the value returned by the [k]-th call to [Math.random()];
    the state threaded through the program is the number of calls made
    so far. *)
Section Random.

Variable rnd : nat -> R.

Definition Rand (A : Type) : Type := nat -> A * nat.

Definition ret {A : Type} (a : A) : Rand A := fun s => (a, s).

Definition bind {A B : Type} (m : Rand A) (k : A -> Rand B) : Rand B :=
  fun s => let (a, s') := m s in k a s'.

Definition random : Rand num := fun s => (Fin (rnd s), S s).

End Random.

Declare Scope rand_scope.
Delimit Scope rand_scope with rand.
Notation "x <- m ;; k" := (bind m (fun x => k))
  (at level 61, m at next level, right associativity) : rand_scope.

(** A draw sequence is admissible when every draw lies in [[0, 1)]. *)
Definition unit_draws (rnd : nat -> R) : Prop := forall k, 0 <= rnd k < 1.

(* ================================================================= *)
(** ** Data model *)

Module Repo.
Record t : Type := mk {
  name : string;
  description : option string;
  html_url : string;
  language : string;
  stargazers_count : nat
}.
End Repo.

(** A 2D point [[x, z]]. *)
Definition Point : Type := (num * num)%type.

(** A value stored under a language key of [reposByLanguage]: an array of
    repos, or anything else. *)
Inductive GroupValue : Type :=
| Repos (l : list Repo.t)
| NotAnArray.

(** [reposByLanguage]: an object used as a map, keys in insertion order. *)
Definition RepoGroup : Type := list (string * GroupValue).

Fixpoint lookup (g : RepoGroup) (lang : string) : GroupValue :=
  match g with
  | [] => NotAnArray
  | (k, v) :: rest => if String.eqb k lang then v else lookup rest lang
  end.

Record City : Type := mkCity {
  language : string;
  centerX : num;
  centerZ : num;
  clusterRadius : num;
  repos : list Repo.t;
  buildingPositions : list Point
}.

(** A road segment [[x1, z1, x2, z2]]. *)
Record RoadSegment : Type := mkSeg {
  x1 : num;
  z1 : num;
  x2 : num;
  z2 : num
}.

(* ================================================================= *)
(** ** Cluster layout generator *)

(** The inner [for (let [px, pz] of positions)] loop: [ok] stays true
    unless an accepted point is closer than [minSep]; the first such point
    ends the loop. *)
Fixpoint separated (minSep x z : num) (positions : list Point) : bool :=
  match positions with
  | [] => true
  | (px, pz) :: rest =>
      if ltb (hypot (sub px x) (sub pz z)) minSep then false
      else separated minSep x z rest
  end.

Section Layout.

Variable rnd : nat -> R.
Local Open Scope rand_scope.

(** One candidate: [angle = Math.random() * Math.PI * 2],
    [r = Math.sqrt(Math.random()) * radius]. *)
Definition candidate (centerX centerZ radius : num) : Rand Point :=
  u <- random rnd ;;
  let angle := mul (mul u PI) (Fin 2) in
  v <- random rnd ;;
  let r := mul (sqrt v) radius in
  let x := add centerX (mul (cos angle) r) in
  let z := add centerZ (mul (sin angle) r) in
  ret (x, z).

(** The [while] loop, by recursion on a bound on the iterations left. *)
Fixpoint clusterLoop (fuel count : nat) (centerX centerZ radius minSep : num)
    (positions : list Point) (attempts : nat) : Rand (list Point) :=
  match fuel with
  | O => ret positions
  | S fuel' =>
      if (length positions <? count)%nat && (attempts <? count * 50)%nat then
        let attempts := S attempts in
        p <- candidate centerX centerZ radius ;;
        let ok := separated minSep (fst p) (snd p) positions in
        let positions := if ok then positions ++ [p] else positions in
        clusterLoop fuel' count centerX centerZ radius minSep positions attempts
      else ret positions
  end.

Definition generateClusterPositions (count : nat)
    (centerX centerZ radius minSep : num) : Rand (list Point) :=
  clusterLoop (count * 50) count centerX centerZ radius minSep [] 0%nat.

End Layout.

(* ================================================================= *)
(** ** City builder *)

Definition planeRadius : num := Fin 80.

Definition cornerPositions : list Point :=
  [ (add (neg planeRadius) (Fin 10), add (neg planeRadius) (Fin 10));
    (sub planeRadius (Fin 10),       add (neg planeRadius) (Fin 10));
    (add (neg planeRadius) (Fin 10), sub planeRadius (Fin 10));
    (sub planeRadius (Fin 10),       sub planeRadius (Fin 10));
    (Fin (-50), Fin 0);
    (Fin 50, Fin 0);
    (Fin 0, Fin (-50));
    (Fin 0, Fin 50) ].

Section CityBuilder.

Variable rnd : nat -> R.
Local Open Scope rand_scope.

(** The callback of [langs.map((lang, i) => ...)]. *)
Definition buildCity (reposByLanguage : RepoGroup) (lang : string) (i : nat)
    : Rand City :=
  let corner :=
    nth (i mod length cornerPositions) cornerPositions (NaN, NaN) in
  u <- random rnd ;;
  let cx := add (fst corner) (mul (sub u (Fin (1/2))) (Fin 10)) in
  v <- random rnd ;;
  let cz := add (snd corner) (mul (sub v (Fin (1/2))) (Fin 10)) in
  t <- random rnd ;;
  let radius := add (Fin 10) (mul t (Fin 5)) in
  let rs := match lookup reposByLanguage lang with
            | Repos l => l
            | NotAnArray => []
            end in
  bp <- generateClusterPositions rnd (length rs) cx cz radius (Fin 5) ;;
  ret (mkCity lang cx cz radius rs bp).

Fixpoint mapCities (reposByLanguage : RepoGroup) (langs : list string)
    (i : nat) : Rand (list City) :=
  match langs with
  | [] => ret []
  | lang :: rest =>
      city <- buildCity reposByLanguage lang i ;;
      cities <- mapCities reposByLanguage rest (S i) ;;
      ret (city :: cities)
  end.

Definition cityData (reposByLanguage : RepoGroup) : Rand (list City) :=
  let langs := map fst reposByLanguage in
  mapCities reposByLanguage langs 0.

End CityBuilder.

(* ================================================================= *)
(** ** Road network builder *)

Definition noCity : City := mkCity EmptyString NaN NaN NaN [] [].

(** The body of the [for] loop at index [i]. *)
Definition roadSegment (cityData : list City) (i : nat) : RoadSegment :=
  let curr := nth i cityData noCity in
  let next := nth ((i + 1) mod length cityData) cityData noCity in
  let dx := sub (centerX next) (centerX curr) in
  let dz := sub (centerZ next) (centerZ curr) in
  let dist := hypot dx dz in
  let ux := div dx dist in
  let uz := div dz dist in
  let x1 := add (centerX curr) (mul ux (add (clusterRadius curr) (Fin 2))) in
  let z1 := add (centerZ curr) (mul uz (add (clusterRadius curr) (Fin 2))) in
  let x2 := sub (centerX next) (mul ux (add (clusterRadius next) (Fin 2))) in
  let z2 := sub (centerZ next) (mul uz (add (clusterRadius next) (Fin 2))) in
  mkSeg x1 z1 x2 z2.

Definition roadSegments (cityData : list City) : list RoadSegment :=
  if (length cityData =? 0)%nat then []
  else
    fold_left (fun segs i => segs ++ [roadSegment cityData i])
              (seq 0 (length cityData)) [].

(* ================================================================= *)
(** ** Obstacle and tree lists *)

Section Obstacles.

Variable rnd : nat -> R.
Local Open Scope rand_scope.

(** The tree derived for one building position of [city]. *)
Definition treeOf (city : City) : Rand Point :=
  u <- random rnd ;;
  let angle := mul (mul u PI) (Fin 2) in
  v <- random rnd ;;
  let r := mul (clusterRadius city) (add (Fin (85/100)) (mul v (Fin (3/10)))) in
  let tx := add (centerX city) (mul (cos angle) r) in
  let tz := add (centerZ city) (mul (sin angle) r) in
  ret (tx, tz).

(** The second [city.buildingPositions.forEach]: one tree per building
    position, pushed to both lists. *)
Fixpoint plantTrees (city : City) (bps : list Point)
    (acc : list Point * list Point) : Rand (list Point * list Point) :=
  match bps with
  | [] => ret acc
  | _ :: rest =>
      t <- treeOf city ;;
      plantTrees city rest (fst acc ++ [t], snd acc ++ [t])
  end.

(** The body of [cityData.forEach]. *)
Definition visitCity (acc : list Point * list Point) (city : City)
    : Rand (list Point * list Point) :=
  let obstacles :=
    fold_left (fun obs pos => obs ++ [pos]) (buildingPositions city) (fst acc) in
  plantTrees city (buildingPositions city) (obstacles, snd acc).

Fixpoint forEachCity (cityData : list City) (acc : list Point * list Point)
    : Rand (list Point * list Point) :=
  match cityData with
  | [] => ret acc
  | city :: rest =>
      acc' <- visitCity acc city ;;
      forEachCity rest acc'
  end.

(** Returns [(obstacleCenters, treePositions)]. *)
Definition obstaclesAndTrees (cityData : list City)
    : Rand (list Point * list Point) :=
  forEachCity cityData ([], []).

Definition obstacleCenters (cityData : list City) : Rand (list Point) :=
  r <- obstaclesAndTrees cityData ;; ret (fst r).

Definition treePositions (cityData : list City) : Rand (list Point) :=
  r <- obstaclesAndTrees cityData ;; ret (snd r).

End Obstacles.

(* ================================================================= *)
(** ** Vectors and scene objects *)

Module Vector3.

Record t : Type := mk { x : num; y : num; z : num }.

Definition add (u v : t) : t :=
  mk (JS.add (x u) (x v)) (JS.add (y u) (y v)) (JS.add (z u) (z v)).

Definition multiplyScalar (v : t) (k : num) : t :=
  mk (mul (x v) k) (mul (y v) k) (mul (z v) k).

(** [u.addScaledVector(v, k)]: [u + v * k]. *)
Definition addScaledVector (u v : t) (k : num) : t :=
  mk (JS.add (x u) (mul (x v) k))
     (JS.add (y u) (mul (y v) k))
     (JS.add (z u) (mul (z v) k)).

(** [v.applyQuaternion(q)] for the quaternion of an object whose only
    rotation is [rotation.y = angle]: the rotation of [v] about the
    vertical axis. *)
Definition applyQuaternion (v : t) (angle : num) : t :=
  mk (JS.add (mul (x v) (cos angle)) (mul (z v) (sin angle)))
     (y v)
     (JS.add (mul (neg (x v)) (sin angle)) (mul (z v) (cos angle))).

End Vector3.

(** The car group: its position and [rotation.y]; its quaternion follows
    the rotation. *)
Record Object3D : Type := mkObject {
  position : Vector3.t;
  rotation_y : num
}.

Record Camera : Type := mkCamera {
  camera_position : Vector3.t;
  camera_lookAt : Vector3.t
}.

(** [keys.current] *)
Module Keys.
Record t : Type := mk {
  w : bool; a : bool; s : bool; d : bool;
  ArrowUp : bool; ArrowLeft : bool; ArrowDown : bool; ArrowRight : bool;
  c : bool
}.

Definition released : t :=
  mk false false false false false false false false false.
End Keys.

(** The state owned by [CarControls]: the car object behind [carRef],
    [velocity.current] and [yaw.current]. *)
Record Drive : Type := mkDrive {
  carRef : option Object3D;
  velocity : num;
  yaw : num
}.

(* ================================================================= *)
(** ** The per-frame callback of [CarControls] *)

Definition carRadius : num := Fin 1.
Definition obstacleRadius : num := Fin 2.

(** Acceleration / braking. *)
Definition accelerate (keys : Keys.t) (delta v : num) : num :=
  if Keys.w keys || Keys.ArrowUp keys then
    min (Fin 20) (add v (mul delta (Fin 10)))
  else if Keys.s keys || Keys.ArrowDown keys then
    max (Fin (-10)) (sub v (mul delta (Fin 10)))
  else mul v (Fin (98/100)).

(** Steering, from the velocity already updated. *)
Definition steer (keys : Keys.t) (delta v yaw0 : num) : num :=
  if gtb (abs v) (Fin (1/2)) then
    let yaw1 :=
      if Keys.a keys || Keys.ArrowLeft keys
      then add yaw0 (mul delta (Fin (12/10))) else yaw0 in
    if Keys.d keys || Keys.ArrowRight keys
    then sub yaw1 (mul delta (Fin (12/10))) else yaw1
  else yaw0.

Definition forwardOf (angle : num) : Vector3.t :=
  Vector3.applyQuaternion (Vector3.mk (Fin 0) (Fin 0) (Fin (-1))) angle.

(** The proposed new position of a car at [pos], from the updated
    velocity [v] and yaw [angle]. *)
Definition propose (pos : Vector3.t) (angle v delta : num) : Vector3.t :=
  Vector3.addScaledVector pos (forwardOf angle) (mul v delta).

(** The [for (let [ox, oz] of obstacleCenters)] loop with its [break]. *)
Fixpoint hitsObstacle (proposed : Vector3.t) (obstacleCenters : list Point)
    : bool :=
  match obstacleCenters with
  | [] => false
  | (ox, oz) :: rest =>
      let dx := sub (Vector3.x proposed) ox in
      let dz := sub (Vector3.z proposed) oz in
      if ltb (hypot dx dz) (add carRadius obstacleRadius) then true
      else hitsObstacle proposed rest
  end.

Definition outOfBounds (proposed : Vector3.t) (planeRadius : num) : bool :=
  ltb (Vector3.x proposed) (add (neg planeRadius) carRadius)
  || gtb (Vector3.x proposed) (sub planeRadius carRadius)
  || ltb (Vector3.z proposed) (add (neg planeRadius) carRadius)
  || gtb (Vector3.z proposed) (sub planeRadius carRadius).

Definition collision (proposed : Vector3.t) (obstacleCenters : list Point)
    (planeRadius : num) : bool :=
  let hit := hitsObstacle proposed obstacleCenters in
  if outOfBounds proposed planeRadius then true else hit.

(** Camera follow. *)
Definition follow (car : Object3D) (forward : Vector3.t) : Camera :=
  let offset :=
    Vector3.applyQuaternion (Vector3.mk (Fin 0) (Fin (5/2)) (Fin 6))
                            (rotation_y car) in
  let camPos := Vector3.add (position car) offset in
  let lookTarget :=
    Vector3.add
      (Vector3.add (position car) (Vector3.multiplyScalar forward (Fin 10)))
      (Vector3.mk (Fin 0) (Fin 1) (Fin 0)) in
  mkCamera camPos lookTarget.

(** The callback passed to [useFrame]. *)
Definition frame (keys : Keys.t) (obstacleCenters : list Point)
    (planeRadius : num) (followCam : bool) (delta : num)
    (st : Drive) (camera : Camera) : Drive * Camera :=
  match carRef st with
  | None => (st, camera)
  | Some car =>
      let v := accelerate keys delta (velocity st) in
      let yaw' := steer keys delta v (yaw st) in
      let car := mkObject (position car) yaw' in
      let forward := forwardOf (rotation_y car) in
      let proposed := Vector3.addScaledVector (position car) forward (mul v delta) in
      let collided := collision proposed obstacleCenters planeRadius in
      let car := if collided then car else mkObject proposed (rotation_y car) in
      let v := if collided then Fin 0 else v in
      let camera := if followCam then follow car forward else camera in
      (mkDrive (Some car) v yaw', camera)
  end.

(** The proposed position computed by [frame] for a car [car]. *)
Definition proposedPosition (keys : Keys.t) (delta : num) (st : Drive)
    (car : Object3D) : Vector3.t :=
  let v := accelerate keys delta (velocity st) in
  propose (position car) (steer keys delta v (yaw st)) v delta.

(** A run of frames, one per [(keys, delta)] input. *)
Fixpoint run (obstacleCenters : list Point) (planeRadius : num)
    (followCam : bool) (inputs : list (Keys.t * num))
    (st : Drive) (camera : Camera) : Drive * Camera :=
  match inputs with
  | [] => (st, camera)
  | (keys, delta) :: rest =>
      let (st', camera') :=
        frame keys obstacleCenters planeRadius followCam delta st camera in
      run obstacleCenters planeRadius followCam rest st' camera'
  end.

(** The car as mounted: [position={[0, 0.5, planeRadius - 20]}], and the
    refs [velocity] and [yaw] at [0]. *)
Definition mountedCar : Object3D :=
  mkObject (Vector3.mk (Fin 0) (Fin (1/2)) (sub planeRadius (Fin 20))) (Fin 0).

Definition initialDrive : Drive := mkDrive (Some mountedCar) (Fin 0) (Fin 0).

(** The position of the car behind [carRef], if mounted. *)
Definition carPosition (st : Drive) : option Vector3.t :=
  option_map position (carRef st).

(** The motion proposed to a frame is rejected: some obstacle lies
    strictly closer than [3.0] to the proposed position, or the proposed
    position is outside the square on one axis. *)
Definition rejected (proposed : Vector3.t) (obstacleCenters : list Point)
    (planeRadius : num) : Prop :=
  (exists o, In o obstacleCenters /\
     ltb (hypot (sub (Vector3.x proposed) (fst o))
                (sub (Vector3.z proposed) (snd o))) (Fin 3) = true)
  \/ ltb (Vector3.x proposed) (add (neg planeRadius) carRadius) = true
  \/ gtb (Vector3.x proposed) (sub planeRadius carRadius) = true
  \/ ltb (Vector3.z proposed) (add (neg planeRadius) carRadius) = true
  \/ gtb (Vector3.z proposed) (sub planeRadius carRadius) = true.

(* ================================================================= *)
(** ** Predicates and scenarios of the properties *)

(** The first frame of a car mounted on an obstacle, with a forward and
    a left key held for a tenth of a second. *)
Definition forwardLeft : Keys.t :=
  Keys.mk true true false false false false false false false.

Definition blockedStart : list Point := [(Fin 0, Fin 60)].

Definition restCamera : Camera :=
  mkCamera (Vector3.mk (Fin 0) (Fin 0) (Fin 0)) (Vector3.mk (Fin 0) (Fin 0) (Fin 0)).

(** The velocity stays within the two clamps. *)
Definition inRange (v : num) : bool := leb (Fin (-10)) v && leb v (Fin 20).

(** The velocity after [n] frames of acceleration alone, keys and
    [delta] fixed. *)
Fixpoint velocityAfter (keys : Keys.t) (delta : num) (n : nat) (v : num) : num :=
  match n with
  | O => v
  | S n' => accelerate keys delta (velocityAfter keys delta n' v)
  end.

Definition forwardHeld (keys : Keys.t) : bool :=
  Keys.w keys || Keys.ArrowUp keys.

Definition backHeld (keys : Keys.t) : bool :=
  Keys.s keys || Keys.ArrowDown keys.

Definition holdingForward : Keys.t :=
  Keys.mk true false false false false false false false false.

(** [n] frames of [delta = 0.1] with only the forward key held. *)
Definition forwardFrames (n : nat) : list (Keys.t * num) :=
  repeat (holdingForward, Fin (1/10)) n.

(** The drive state [k] frames into a straight forward run from
    [initialDrive]: velocity [k], the car [k (k + 1) / 20] further on. *)
Definition straightDrive (k : nat) : Drive :=
  mkDrive (Some (mkObject (Vector3.mk (Fin 0) (Fin (1/2))
                             (Fin (60 - INR k * (INR k + 1) / 20)))
                          (Fin 0)))
          (Fin (INR k)) (Fin 0).

(** The segment every coordinate of which is not a number. *)
Definition nanSegment : RoadSegment := mkSeg NaN NaN NaN NaN.

(** A lone city, as [cityData] builds it when every draw is [0.5]. *)
Definition loneCity : City :=
  mkCity "Python" (Fin (-70)) (Fin (-70)) (Fin (25/2)) [] [].

(** [p] lies in the closed disk of radius [|radius|] around the center. *)
Definition inDisk (centerX centerZ radius : num) (p : Point) : bool :=
  leb (hypot (sub (fst p) centerX) (sub (snd p) centerZ)) (abs radius).

(** [p] and [q] are at distance at least [minSep]. *)
Definition apart (minSep : num) (p q : Point) : bool :=
  leb minSep (hypot (sub (fst p) (fst q)) (sub (snd p) (snd q))).

Definition finitePoint (p : Point) : Prop :=
  exists x z : R, p = (Fin x, Fin z).

(** The draws that are all [0]. *)
Definition zeroDraws : nat -> R := fun _ => 0.

(** The draws that are all [0.5]. *)
Definition halfDraws : nat -> R := fun _ => 1/2.

Definition sampleRepo (name : string) : Repo.t :=
  Repo.mk name None "https://github.com/example" "JavaScript" 0.

(** One language with two repos. *)
Definition twoRepos : RepoGroup :=
  [("JavaScript"%string, Repos [sampleRepo "portfolio"; sampleRepo "notes"])].

(** What the layout loop maintains of the accepted points: they are
    finite, in the disk, and pairwise apart. *)
Definition wellPlaced (cx cz radius minSep : R) (positions : list Point)
    : Prop :=
  Forall (fun p => finitePoint p /\
                   inDisk (Fin cx) (Fin cz) (Fin radius) p = true) positions
  /\ ForallOrdPairs (fun p q => apart (Fin minSep) p q = true /\
                                apart (Fin minSep) q p = true) positions.

(** The repos [cityData] attaches to a language: the array stored under
    the key, or [[]] when the value is not an array. *)
Definition reposOf (reposByLanguage : RepoGroup) (lang : string) : list Repo.t :=
  match lookup reposByLanguage lang with
  | Repos l => l
  | NotAnArray => []
  end.

(** The building positions of all cities together. *)
Definition totalBuildings (cityData : list City) : nat :=
  list_sum (map (fun city => length (buildingPositions city)) cityData).

Definition threeRepos : GroupValue :=
  Repos [sampleRepo "one"; sampleRepo "two"; sampleRepo "three"].

(** Eight languages with three repos each. *)
Definition eightLanguages : RepoGroup :=
  [("C"%string, threeRepos); ("Go"%string, threeRepos);
   ("Java"%string, threeRepos); ("JavaScript"%string, threeRepos);
   ("Python"%string, threeRepos); ("Ruby"%string, threeRepos);
   ("Rust"%string, threeRepos); ("Other"%string, threeRepos)].

(** A city holding three building positions. *)
Definition threeBuildings : City :=
  mkCity "Go" (Fin 50) (Fin 0) (Fin 12)
         [sampleRepo "one"; sampleRepo "two"; sampleRepo "three"]
         [(Fin 50, Fin 0); (Fin 56, Fin 0); (Fin 50, Fin 6)].

(** Two cities on distinct centers. *)
Definition westCity : City :=
  mkCity "Go" (Fin (-50)) (Fin 0) (Fin 12) [] [].

Definition eastCity : City :=
  mkCity "Rust" (Fin 50) (Fin 0) (Fin 10) [] [].

(** The finite coordinates of a point ([(0, 0)] for a point that has none). *)
Definition coords (p : Point) : R * R :=
  match p with
  | (Fin x, Fin z) => (x, z)
  | _ => (0, 0)
  end.

(** The square of side [3.5] of a grid anchored at [(cx - 15, cz - 15)]
    that holds [p]. *)
Definition cell (cx cz : R) (p : Point) : Z * Z :=
  (Int_part ((fst (coords p) - cx + 15) / (7/2)),
   Int_part ((snd (coords p) - cz + 15) / (7/2))).

(** The 81 squares of the grid that meet the disk of radius [15]. *)
Definition gridCells : list (Z * Z) :=
  list_prod (map Z.of_nat (seq 0 9)) (map Z.of_nat (seq 0 9)).

(** One language with a hundred repos. *)
Definition hundredRepos : RepoGroup :=
  [("JavaScript"%string, Repos (repeat (sampleRepo "project") 100))].

(* ================================================================= *)
(** ** Keyboard listeners and the free camera *)

(** [keys.current[key] = v] when [keys.current[key] !== undefined]: the
    nine tracked names are set, every other key leaves the record as it
    is. *)
Definition setKey (keys : Keys.t) (key : string) (v : bool) : Keys.t :=
  if String.eqb key "w" then
    Keys.mk v (Keys.a keys) (Keys.s keys) (Keys.d keys) (Keys.ArrowUp keys)
            (Keys.ArrowLeft keys) (Keys.ArrowDown keys) (Keys.ArrowRight keys)
            (Keys.c keys)
  else if String.eqb key "a" then
    Keys.mk (Keys.w keys) v (Keys.s keys) (Keys.d keys) (Keys.ArrowUp keys)
            (Keys.ArrowLeft keys) (Keys.ArrowDown keys) (Keys.ArrowRight keys)
            (Keys.c keys)
  else if String.eqb key "s" then
    Keys.mk (Keys.w keys) (Keys.a keys) v (Keys.d keys) (Keys.ArrowUp keys)
            (Keys.ArrowLeft keys) (Keys.ArrowDown keys) (Keys.ArrowRight keys)
            (Keys.c keys)
  else if String.eqb key "d" then
    Keys.mk (Keys.w keys) (Keys.a keys) (Keys.s keys) v (Keys.ArrowUp keys)
            (Keys.ArrowLeft keys) (Keys.ArrowDown keys) (Keys.ArrowRight keys)
            (Keys.c keys)
  else if String.eqb key "ArrowUp" then
    Keys.mk (Keys.w keys) (Keys.a keys) (Keys.s keys) (Keys.d keys) v
            (Keys.ArrowLeft keys) (Keys.ArrowDown keys) (Keys.ArrowRight keys)
            (Keys.c keys)
  else if String.eqb key "ArrowLeft" then
    Keys.mk (Keys.w keys) (Keys.a keys) (Keys.s keys) (Keys.d keys)
            (Keys.ArrowUp keys) v (Keys.ArrowDown keys) (Keys.ArrowRight keys)
            (Keys.c keys)
  else if String.eqb key "ArrowDown" then
    Keys.mk (Keys.w keys) (Keys.a keys) (Keys.s keys) (Keys.d keys)
            (Keys.ArrowUp keys) (Keys.ArrowLeft keys) v (Keys.ArrowRight keys)
            (Keys.c keys)
  else if String.eqb key "ArrowRight" then
    Keys.mk (Keys.w keys) (Keys.a keys) (Keys.s keys) (Keys.d keys)
            (Keys.ArrowUp keys) (Keys.ArrowLeft keys) (Keys.ArrowDown keys) v
            (Keys.c keys)
  else if String.eqb key "c" then
    Keys.mk (Keys.w keys) (Keys.a keys) (Keys.s keys) (Keys.d keys)
            (Keys.ArrowUp keys) (Keys.ArrowLeft keys) (Keys.ArrowDown keys)
            (Keys.ArrowRight keys) v
  else keys.

(** The names under which [keys.current] holds a value. *)
Definition trackedKeys : list string :=
  ["w"; "a"; "s"; "d"; "ArrowUp"; "ArrowLeft"; "ArrowDown"; "ArrowRight";
   "c"]%string.

(** What the listeners of [CarControls] own: the key record and the
    [followCam] flag behind [toggleFollowCam]. *)
Record Controls : Type := mkControls {
  keysOf : Keys.t;
  followCam : bool
}.

(** [onKeyDown] of [CarControls], for an event with [e.key = key]. *)
Definition onKeyDown (key : string) (ctl : Controls) : Controls :=
  let keys := setKey (keysOf ctl) key true in
  let follow :=
    if String.eqb key "c" || String.eqb key "C"
    then negb (followCam ctl) else followCam ctl in
  mkControls keys follow.

(** [onKeyUp] of [CarControls]. *)
Definition onKeyUp (key : string) (ctl : Controls) : Controls :=
  mkControls (setKey (keysOf ctl) key false) (followCam ctl).

(** A keyboard event: a key going down or up. *)
Inductive KeyEvent : Type :=
| KeyDown (key : string)
| KeyUp (key : string).

Definition handleKey (e : KeyEvent) (ctl : Controls) : Controls :=
  match e with
  | KeyDown key => onKeyDown key ctl
  | KeyUp key => onKeyUp key ctl
  end.

(** [freeKeys.current] of the gallery. *)
Record FreeKeys : Type := mkFreeKeys {
  Space : bool;
  Control : bool
}.

(** The gallery's [onKeyDown], for an event with [e.code = code]. *)
Definition freeKeyDown (code : string) (fk : FreeKeys) : FreeKeys :=
  let fk := if String.eqb code "Space" then mkFreeKeys true (Control fk) else fk in
  if String.eqb code "ControlLeft" || String.eqb code "ControlRight"
  then mkFreeKeys (Space fk) true else fk.

(** The gallery's [onKeyUp]. *)
Definition freeKeyUp (code : string) (fk : FreeKeys) : FreeKeys :=
  let fk := if String.eqb code "Space" then mkFreeKeys false (Control fk) else fk in
  if String.eqb code "ControlLeft" || String.eqb code "ControlRight"
  then mkFreeKeys (Space fk) false else fk.

(** The gallery's frame callback, on [camera.position.y]. *)
Definition freeCameraFrame (followCam : bool) (fk : FreeKeys) (delta y : num)
    : num :=
  if negb followCam then
    let speedY := mul (Fin 20) delta in
    let y := if Space fk then add y speedY else y in
    if Control fk then sub y speedY else y
  else y.

(** The car, if mounted, stands where the collision test passes. *)
Definition clear (obstacleCenters : list Point) (planeRadius : num)
    (st : Drive) : Prop :=
  match carRef st with
  | Some car => collision (position car) obstacleCenters planeRadius = false
  | None => True
  end.

(** Only a back key is held. *)
Definition holdingBack : Keys.t :=
  Keys.mk false false true false false false false false false.

(** Both steering keys are held, and nothing else. *)
Definition steeringBoth : Keys.t :=
  Keys.mk false true false true false false false false false.

(** [keys.current[name]]: the tracked value, or [None] for [undefined]. *)
Definition getKey (keys : Keys.t) (name : string) : option bool :=
  if String.eqb name "w" then Some (Keys.w keys)
  else if String.eqb name "a" then Some (Keys.a keys)
  else if String.eqb name "s" then Some (Keys.s keys)
  else if String.eqb name "d" then Some (Keys.d keys)
  else if String.eqb name "ArrowUp" then Some (Keys.ArrowUp keys)
  else if String.eqb name "ArrowLeft" then Some (Keys.ArrowLeft keys)
  else if String.eqb name "ArrowDown" then Some (Keys.ArrowDown keys)
  else if String.eqb name "ArrowRight" then Some (Keys.ArrowRight keys)
  else if String.eqb name "c" then Some (Keys.c keys)
  else None.

(** The listeners applied to a sequence of keyboard events, in order. *)
Definition handleKeys (events : list KeyEvent) (ctl : Controls) : Controls :=
  fold_left (fun c e => handleKey e c) events ctl.

(** The event is a press of the camera key, in either case. *)
Definition togglesCamera (e : KeyEvent) : bool :=
  match e with
  | KeyDown key => String.eqb key "c" || String.eqb key "C"
  | KeyUp _ => false
  end.

(** The anchor [cornerPositions[i % cornerPositions.length]]. *)
Definition anchorOf (i : nat) : Point :=
  nth (i mod length cornerPositions) cornerPositions (NaN, NaN).

(** The buildings of a city as the gallery renders them:
    [city.buildingPositions.map(([bx, bz], idx) => ...)] pairs the
    position at [idx] with [city.repos[idx]] and reads its [name];
    [None] stands for the [TypeError] of reading [name] off
    [undefined]. *)
Fixpoint renderFrom (repos : list Repo.t) (bps : list Point) (idx : nat)
    : option (list (Repo.t * Point)) :=
  match bps with
  | [] => Some []
  | pos :: rest =>
      match nth_error repos idx with
      | None => None
      | Some repo =>
          match renderFrom repos rest (S idx) with
          | None => None
          | Some out => Some ((repo, pos) :: out)
          end
      end
  end.

Definition renderBuildings (city : City) : option (list (Repo.t * Point)) :=
  renderFrom (repos city) (buildingPositions city) 0.

(** The four coordinates of a segment are finite numbers. *)
Definition finiteSegment (seg : RoadSegment) : Prop :=
  exists a b c d : R, seg = mkSeg (Fin a) (Fin b) (Fin c) (Fin d).

(* ================================================================= *)
(** ** Road segments for the ground shader *)

Definition MAX_ROADS : nat := 8.

(** [new THREE.Vector4(0, 0, 0, 0)] *)
Definition zeroVec4 : RoadSegment := mkSeg (Fin 0) (Fin 0) (Fin 0) (Fin 0).

(** [arr[i] = v] for an index inside the array (the only case the
    builder reaches: it returns before, when [i >= MAX_ROADS]). *)
Fixpoint setAt {A : Type} (arr : list A) (i : nat) (v : A) : list A :=
  match arr, i with
  | [], _ => []
  | _ :: rest, O => v :: rest
  | a :: rest, S i' => a :: setAt rest i' v
  end.

(** [roadSegments.forEach((seg, i) => ...)] from index [i] on. *)
Fixpoint fillVec4 (segs : list RoadSegment) (i : nat) (arr : list RoadSegment)
    : list RoadSegment :=
  match segs with
  | [] => arr
  | seg :: rest =>
      let arr' :=
        if (MAX_ROADS <=? i)%nat then arr
        else setAt arr i (mkSeg (x1 seg) (z1 seg) (x2 seg) (z2 seg)) in
      fillVec4 rest (S i) arr'
  end.

Definition roadSegmentsVec4 (roadSegments : list RoadSegment)
    : list RoadSegment :=
  fillVec4 roadSegments 0 (repeat zeroVec4 MAX_ROADS).

(** *** The fragment shader's road test *)

(** [a == b] on numbers. *)
Definition numEqb (a b : num) : bool :=
  match a, b with
  | Fin x, Fin y => Reqb x y
  | PInf, PInf | NInf, NInf => true
  | _, _ => false
  end.

Definition dot2 (u v : Point) : num :=
  add (mul (fst u) (fst v)) (mul (snd u) (snd v)).

(** [length(v)] *)
Definition length2 (v : Point) : num := sqrt (dot2 v v).

Definition sub2 (u v : Point) : Point :=
  (sub (fst u) (fst v), sub (snd u) (snd v)).

Definition add2 (u v : Point) : Point :=
  (add (fst u) (fst v), add (snd u) (snd v)).

Definition scale2 (k : num) (v : Point) : Point :=
  (mul k (fst v), mul k (snd v)).

(** [clamp(x, lo, hi)] is [min(max(x, lo), hi)]. *)
Definition clamp (x lo hi : num) : num := min (max x lo) hi.

(** [pointToSegmentDist(P, A, B, out t)]: the returned distance and the
    value left in [t]. *)
Definition pointToSegmentDist (P A B : Point) : num * num :=
  let AB := sub2 B A in
  let ab2 := dot2 AB AB in
  if numEqb ab2 (Fin 0) then (length2 (sub2 P A), Fin 0)
  else
    let proj := div (dot2 (sub2 P A) AB) ab2 in
    let t := clamp proj (Fin 0) (Fin 1) in
    let projection := add2 A (scale2 t AB) in
    (length2 (sub2 P projection), t).

(** The [for (int i = 0; i < MAX_ROADS; i++)] loop of [main], from index
    [i] with [n] iterations left: is the fragment at [P] on a road? *)
Fixpoint roadLoop (P : Point) (roadWidth : num) (roadCount : nat)
    (roadSegments : list RoadSegment) (i n : nat) : bool :=
  match n with
  | O => false
  | S n' =>
      if (roadCount <=? i)%nat then false
      else
        let seg := nth i roadSegments zeroVec4 in
        let A := (x1 seg, z1 seg) in
        let B := (x2 seg, z2 seg) in
        let dist := fst (pointToSegmentDist P A B) in
        if ltb dist roadWidth then true
        else roadLoop P roadWidth roadCount roadSegments (S i) n'
  end.

(** [onRoad] for the uniforms the gallery sets: [roadCount] is
    [roadSegments.length], [roadSegments] is [roadSegmentsVec4] and
    [roadWidth] is [6.0]. *)
Definition onRoad (P : Point) (roadSegments : list RoadSegment) : bool :=
  roadLoop P (Fin 6) (length roadSegments) (roadSegmentsVec4 roadSegments)
           0 MAX_ROADS.

(** The fragment at [P] is closer than [6.0] to the segment. *)
Definition nearSegment (P : Point) (seg : RoadSegment) : bool :=
  ltb (fst (pointToSegmentDist P (x1 seg, z1 seg) (x2 seg, z2 seg))) (Fin 6).

(** The squared distance from [(px, pz)] to the point at parameter [s]
    of the segment from [(ax, az)] to [(bx, bz)]. *)
Definition segDist2 (px pz ax az bx bz s : R) : R :=
  (px - (ax + s * (bx - ax))) * (px - (ax + s * (bx - ax)))
  + (pz - (az + s * (bz - az))) * (pz - (az + s * (bz - az))).

(** The obstacle list made of each city's building positions followed by
    the trees [tss] planted for it. *)
Fixpoint cityObstacles (cities : list City) (tss : list (list Point))
    : list Point :=
  match cities, tss with
  | city :: cs, ts :: rest =>
      buildingPositions city ++ ts ++ cityObstacles cs rest
  | _, _ => []
  end.

(* ================================================================= *)
(** ** Building windows *)

(** The window centers computed by [BuildingWindows]: [cols = 3] columns
    of [rows = 5] windows, column by column. *)
Definition buildingWindows (width height : num) : list Point :=
  let cols := 3%nat in
  let rows := 5%nat in
  let wSpacing := div width (Fin (INR cols + 1)) in
  let hSpacing := div height (Fin (INR rows + 1)) in
  flat_map
    (fun i =>
       map (fun j =>
              let wx := add (div (neg width) (Fin 2)) (mul (Fin (INR i)) wSpacing) in
              let wy := add (div (neg height) (Fin 2)) (mul (Fin (INR j)) hSpacing) in
              (wx, wy))
           (seq 1 rows))
    (seq 1 cols).

(* ================================================================= *)
(** ** The repository hook: [useGitHubRepos] *)

(** A repo as the API returns it; [description] and [language] may be
    [null]. *)
Module Raw.
Record t : Type := mk {
  name : string;
  description : option string;
  html_url : string;
  language : option string;
  stargazers_count : nat
}.
End Raw.

(** [repo.language || "Other"]: [null] and the empty string fall back. *)
Definition langOf (raw : Raw.t) : string :=
  match Raw.language raw with
  | Some l => if String.eqb l "" then "Other"%string else l
  | None => "Other"%string
  end.

(** The object pushed to [grouped[lang]]. *)
Definition toRepo (raw : Raw.t) : Repo.t :=
  Repo.mk (Raw.name raw) (Raw.description raw) (Raw.html_url raw)
          (langOf raw) (Raw.stargazers_count raw).

(** The property names every object literal inherits: [grouped[lang]]
    is truthy for them from the start. *)
Definition inherited : list string :=
  ["constructor"; "__defineGetter__"; "__defineSetter__"; "hasOwnProperty";
   "__lookupGetter__"; "__lookupSetter__"; "isPrototypeOf";
   "propertyIsEnumerable"; "toString"; "valueOf"; "__proto__";
   "toLocaleString"]%string.

Definition isInherited (lang : string) : bool :=
  existsb (String.eqb lang) inherited.

(** [if (!grouped[lang]) grouped[lang] = []; grouped[lang].push(repo)]
    for a name that is not inherited: the keys of the object are kept in
    the order in which they were added. *)
Fixpoint pushRepo (grouped : RepoGroup) (lang : string) (repo : Repo.t)
    : RepoGroup :=
  match grouped with
  | [] => [(lang, Repos [repo])]
  | (k, v) :: rest =>
      if String.eqb k lang then
        (k, match v with
            | Repos l => Repos (l ++ [repo])
            | NotAnArray => NotAnArray
            end) :: rest
      else (k, v) :: pushRepo rest lang repo
  end.

(** One step of [allRepos.forEach]; [None] is the [TypeError] thrown by
    [grouped[lang].push] when [lang] names an inherited property. *)
Definition groupStep (grouped : option RepoGroup) (raw : Raw.t)
    : option RepoGroup :=
  match grouped with
  | None => None
  | Some g =>
      if isInherited (langOf raw) then None
      else Some (pushRepo g (langOf raw) (toRepo raw))
  end.

Definition groupRepos (allRepos : list Raw.t) : option RepoGroup :=
  fold_left groupStep allRepos (Some []).

(** What one [fetch] of a page comes to. *)
Inductive FetchError : Type :=
| NetworkError
| HttpStatus (status : nat) (body : string)
| BadJson.

Inductive Response : Type :=
| Failure (e : FetchError)
| Page (data : list Raw.t).

Definition perPage : nat := 100.

(** The [while (true)] loop of [fetchRepos], by recursion on a bound on
    the number of fetches; [None]: the loop has not ended within the
    bound. *)
Fixpoint fetchLoop (api : nat -> Response) (fuel page : nat)
    (allRepos : list Raw.t) : option (FetchError + list Raw.t) :=
  match fuel with
  | O => None
  | S fuel' =>
      match api page with
      | Failure e => Some (inl e)
      | Page data =>
          if (length data =? 0)%nat then Some (inr allRepos)
          else
            let allRepos := allRepos ++ data in
            if (length data <? perPage)%nat then Some (inr allRepos)
            else fetchLoop api fuel' (S page) allRepos
      end
  end.

Inductive HookError : Type :=
| NoUsername
| FetchFailed (e : FetchError)
| GroupingFailed.

Record HookState : Type := mkHook {
  groupedRepos : RepoGroup;
  loading : bool;
  error : option HookError
}.

(** The state the hook starts from. *)
Definition initialHook : HookState := mkHook [] true None.

(** The state of the hook once its effect has run to the end, for the
    responses [api] of the server, page by page from [1]; [None]: still
    loading after [fuel] fetches. *)
Definition useGitHubRepos (username : string) (api : nat -> Response)
    (fuel : nat) : option HookState :=
  if String.eqb username "" then
    Some (mkHook [] false (Some NoUsername))
  else
    match fetchLoop api fuel 1 [] with
    | None => None
    | Some (inl e) => Some (mkHook [] false (Some (FetchFailed e)))
    | Some (inr allRepos) =>
        match groupRepos allRepos with
        | None => Some (mkHook [] false (Some GroupingFailed))
        | Some grouped => Some (mkHook grouped false None)
        end
    end.

(** What [App] renders from the state of the hook. *)
Inductive View : Type :=
| LoadingView
| ErrorView (e : option HookError)
| GalleryView (reposByLanguage : RepoGroup).

Definition App (st : HookState) : View :=
  if loading st then LoadingView
  else
    match error st with
    | Some e => ErrorView (Some e)
    | None => GalleryView (groupedRepos st)
    end.

(** The pages [1] to [k] of the server, one after the other. *)
Definition pagesTo (api : nat -> Response) (k : nat) : list Raw.t :=
  flat_map (fun p => match api p with Page data => data | Failure _ => [] end)
           (seq 1 k).

(** The languages of a list of raw repos, each once, in the order of
    first appearance. *)
Fixpoint languagesOf (allRepos : list Raw.t) (seen : list string)
    : list string :=
  match allRepos with
  | [] => []
  | raw :: rest =>
      if existsb (String.eqb (langOf raw)) seen then languagesOf rest seen
      else langOf raw :: languagesOf rest (seen ++ [langOf raw])
  end.

(** The keys of a grouping are distinct and each holds a non-empty
    array of repos. *)
Definition wellGrouped (g : RepoGroup) : Prop :=
  NoDup (map fst g)
  /\ Forall (fun kv => exists r l, snd kv = Repos (r :: l)) g.

Definition sampleRaw (name : string) (lang : option string) : Raw.t :=
  Raw.mk name None "https://github.com/example" lang 0.

(** A server with three repos, all on the first page. *)
Definition smallAccount : nat -> Response :=
  fun page =>
    if (page =? 1)%nat then
      Page [sampleRaw "portfolio" (Some "JavaScript"%string);
            sampleRaw "notes" None;
            sampleRaw "site" (Some "JavaScript"%string)]
    else Page [].

(** A server that is down. *)
Definition brokenServer : nat -> Response :=
  fun _ => Failure (HttpStatus 403 "rate limit exceeded").

(** The repos of one language, in the order of the input. *)
Definition reposIn (lang : string) (allRepos : list Raw.t) : list Repo.t :=
  map toRepo (filter (fun raw => String.eqb (langOf raw) lang) allRepos).

(** A server whose every page is full. *)
Definition endlessServer : nat -> Response :=
  fun _ => Page (repeat (sampleRaw "fork" (Some "C"%string)) perPage).

(** A name made of decimal digits only.  The array indices are among
    these names: [Object.keys] lists them first, in numeric order, and
    every other key in the order in which it was added. *)
Definition isDigit (c : Ascii.ascii) : bool :=
  (48 <=? Ascii.nat_of_ascii c)%nat && (Ascii.nat_of_ascii c <=? 57)%nat.

Fixpoint digitsOnly (s : string) : bool :=
  match s with
  | EmptyString => false
  | String c EmptyString => isDigit c
  | String c rest => isDigit c && digitsOnly rest
  end.

(** The languages for which the grouping is an object whose keys come in
    the order of first appearance. *)
Definition plainLanguages (allRepos : list Raw.t) : Prop :=
  Forall (fun raw => digitsOnly (langOf raw) = false) allRepos.

(** A server for an account without repos. *)
Definition emptyAccount : nat -> Response := fun _ => Page [].

(* ================================================================= *)
(** * Properties *)

(** ** Evaluating the number model *)

Section NumberFacts.

Lemma Rltb_true (a b : R) : a < b -> Rltb a b = true.
Proof. unfold Rltb; destruct (Rlt_dec a b); tauto. Qed.

Lemma Rltb_false (a b : R) : b <= a -> Rltb a b = false.
Proof. unfold Rltb; destruct (Rlt_dec a b); [lra | reflexivity]. Qed.

Lemma Rltb_spec (a b : R) : Rltb a b = true <-> a < b.
Proof. unfold Rltb; destruct (Rlt_dec a b); split; auto; discriminate. Qed.

Lemma Rltb_nlt (a b : R) : Rltb a b = false <-> b <= a.
Proof.
  unfold Rltb; destruct (Rlt_dec a b); split; auto; try discriminate; lra.
Qed.

Lemma Rleb_spec (a b : R) : Rleb a b = true <-> a <= b.
Proof. unfold Rleb; destruct (Rle_dec a b); split; auto; discriminate. Qed.

Lemma Rleb_true (a b : R) : a <= b -> Rleb a b = true.
Proof. apply Rleb_spec. Qed.

Lemma Reqb_true (a b : R) : a = b -> Reqb a b = true.
Proof. unfold Reqb; destruct (Req_dec_T a b); tauto. Qed.

Lemma Reqb_false (a b : R) : a <> b -> Reqb a b = false.
Proof. unfold Reqb; destruct (Req_dec_T a b); tauto. Qed.

Lemma Rsign_zero : Rsign 0 = Eq.
Proof. unfold Rsign; rewrite !Rltb_false by lra; reflexivity. Qed.

Lemma min_Fin (a b : R) : min (Fin a) (Fin b) = Fin (Rmin a b).
Proof.
  unfold min, Rmin; simpl; unfold Rltb.
  destruct (Rlt_dec b a), (Rle_dec a b); try reflexivity; lra.
Qed.

Lemma max_Fin (a b : R) : max (Fin a) (Fin b) = Fin (Rmax a b).
Proof.
  unfold max, Rmax; simpl; unfold Rltb.
  destruct (Rlt_dec a b), (Rle_dec a b); try reflexivity; try lra.
  f_equal; lra.
Qed.

Lemma leb_Fin (a b : R) : leb (Fin a) (Fin b) = true <-> a <= b.
Proof. apply Rleb_spec. Qed.

Lemma ltb_Fin (a b : R) : ltb (Fin a) (Fin b) = true <-> a < b.
Proof. apply Rltb_spec. Qed.

Lemma ltb_Fin_false (a b : R) : ltb (Fin a) (Fin b) = false <-> b <= a.
Proof. apply Rltb_nlt. Qed.

(** The zero-over-zero quotient is [NaN], and [NaN] is absorbing. *)
Lemma div_zero_zero : div (Fin 0) (Fin 0) = NaN.
Proof. simpl; rewrite Reqb_true, Rsign_zero; reflexivity. Qed.

Lemma div_Fin (a b : R) : b <> 0 -> div (Fin a) (Fin b) = Fin (a / b).
Proof. intros H; simpl; rewrite Reqb_false; auto. Qed.

Lemma mul_NaN_l (a : num) : mul NaN a = NaN.
Proof. destruct a; simpl; try reflexivity; destruct (Rsign r); reflexivity. Qed.

Lemma radii_sum : add carRadius obstacleRadius = Fin 3.
Proof. unfold carRadius, obstacleRadius; simpl; f_equal; lra. Qed.

Lemma leb_zero_cases (d : num) :
  leb (Fin 0) d = true -> d = PInf \/ exists r, d = Fin r /\ 0 <= r.
Proof.
  destruct d as [r| | |]; simpl; try discriminate; auto.
  intros H; right; exists r; split; auto; now apply Rleb_spec.
Qed.

End NumberFacts.

(** Rewrites the boolean comparisons of reals whose outcome [lra] knows. *)
Ltac decide_cmp :=
  repeat match goal with
    | |- context [Rltb ?a ?b] =>
        first [ rewrite (Rltb_true a b) by lra
              | rewrite (Rltb_false a b) by lra ]
    | |- context [Reqb ?a ?b] =>
        first [ rewrite (Reqb_true a b) by lra
              | rewrite (Reqb_false a b) by lra ]
    | |- context [Rleb ?a ?b] => rewrite (Rleb_true a b) by lra
    end.

(* ================================================================= *)
(** ** Drive controller *)

Section DriveFacts.

Variables (keys : Keys.t) (obstacleCenters : list Point)
          (planeRadius : num) (followCam : bool) (delta : num).

Lemma hitsObstacle_spec (proposed : Vector3.t) (obs : list Point) :
  hitsObstacle proposed obs = true <->
  exists o, In o obs /\
    ltb (hypot (sub (Vector3.x proposed) (fst o))
               (sub (Vector3.z proposed) (snd o))) (Fin 3) = true.
Proof.
  induction obs as [|[ox oz] rest IH]; cbn [hitsObstacle In].
  - split; [discriminate | intros [o [[] _]]].
  - rewrite radii_sum.
    destruct (ltb _ (Fin 3)) eqn:E.
    + split; auto. intros _. exists (ox, oz); simpl; auto.
    + rewrite IH. split.
      * intros [o [Hin Ho]]; exists o; auto.
      * intros [o [[<- | Hin] Ho]]; simpl in Ho; [congruence | exists o; auto].
Qed.

Lemma collision_spec (proposed : Vector3.t) :
  collision proposed obstacleCenters planeRadius =
  hitsObstacle proposed obstacleCenters || outOfBounds proposed planeRadius.
Proof.
  unfold collision.
  destruct (outOfBounds _ _), (hitsObstacle _ _); reflexivity.
Qed.

(** What a frame does to a mounted car. *)
Lemma frame_mounted (st : Drive) (camera : Camera) (car : Object3D) :
  carRef st = Some car ->
  let v := accelerate keys delta (velocity st) in
  let yaw' := steer keys delta v (yaw st) in
  let proposed := proposedPosition keys delta st car in
  let collided := collision proposed obstacleCenters planeRadius in
  fst (frame keys obstacleCenters planeRadius followCam delta st camera) =
  mkDrive (Some (mkObject (if collided then position car else proposed) yaw'))
          (if collided then Fin 0 else v) yaw'.
Proof.
  intros Hcar; unfold frame; rewrite Hcar; cbn [fst].
  unfold proposedPosition, propose; simpl.
  destruct (collision _ _ _); reflexivity.
Qed.

Lemma frame_unmounted (st : Drive) (camera : Camera) :
  carRef st = None ->
  frame keys obstacleCenters planeRadius followCam delta st camera = (st, camera).
Proof. intros H; unfold frame; rewrite H; reflexivity. Qed.

End DriveFacts.

Lemma rejected_iff_collision (proposed : Vector3.t) (obs : list Point)
    (planeRadius : num) :
  rejected proposed obs planeRadius <-> collision proposed obs planeRadius = true.
Proof.
  rewrite collision_spec, orb_true_iff, hitsObstacle_spec.
  unfold rejected, outOfBounds.
  rewrite !orb_true_iff. tauto.
Qed.

(** *** Two first frames of the mounted car *)

Lemma sin_cos_scaled (t k : R) :
  (k * Rtrigo_def.sin t) * (k * Rtrigo_def.sin t)
  + (k * Rtrigo_def.cos t) * (k * Rtrigo_def.cos t) = k * k.
Proof. pose proof (sin2_cos2 t) as H; unfold Rsqr in H; nra. Qed.

Lemma sqrt_lt_bound (a b : R) : 0 < b -> a < b * b -> R_sqrt.sqrt a < b.
Proof.
  intros Hb Hab.
  destruct (Rle_lt_dec 0 a) as [Ha | Ha].
  - rewrite <- (sqrt_square b) by lra.
    apply sqrt_lt_1_alt; lra.
  - rewrite sqrt_neg_0 by lra. lra.
Qed.

Ltac decide_abs :=
  repeat match goal with
    | |- context [Rabs ?a] =>
        first [ rewrite (Rabs_pos_eq a) by lra
              | rewrite (Rabs_left a) by lra ]
    end.

Lemma blocked_velocity :
  accelerate forwardLeft (Fin (1/10)) (velocity initialDrive) = Fin 1.
Proof.
  unfold accelerate; cbn [forwardLeft Keys.w orb initialDrive velocity mul add].
  rewrite min_Fin. f_equal. unfold Rmin; destruct (Rle_dec _ _); lra.
Qed.

Lemma blocked_yaw :
  steer forwardLeft (Fin (1/10)) (Fin 1) (yaw initialDrive) = Fin (12/100).
Proof.
  unfold steer; simpl. decide_abs. decide_cmp. f_equal; lra.
Qed.

Lemma blocked_rejected :
  collision (proposedPosition forwardLeft (Fin (1/10)) initialDrive mountedCar)
            blockedStart planeRadius = true.
Proof.
  unfold proposedPosition. rewrite blocked_velocity, blocked_yaw.
  rewrite collision_spec. apply orb_true_iff; left.
  apply hitsObstacle_spec. exists (Fin 0, Fin 60); split; [left; reflexivity |].
  simpl. apply Rltb_true. apply sqrt_lt_bound; [lra |].
  pose proof (sin_cos_scaled (12/100) (1 * (1/10))) as H. nra.
Qed.

Lemma accelerate_forward (keys : Keys.t) (delta v : num) :
  forwardHeld keys = true ->
  accelerate keys delta v = min (Fin 20) (add v (mul delta (Fin 10))).
Proof. unfold accelerate, forwardHeld; now intros ->. Qed.

Lemma accelerate_forward_tenth (keys : Keys.t) (v : R) :
  forwardHeld keys = true ->
  accelerate keys (Fin (1/10)) (Fin v) = Fin (Rmin 20 (v + 10 * (1/10))).
Proof.
  intros Hf. rewrite accelerate_forward by assumption.
  cbn [mul add]. rewrite min_Fin. do 2 f_equal. lra.
Qed.

Lemma steer_straight (delta v yaw0 : num) :
  steer holdingForward delta v yaw0 = yaw0.
Proof. unfold steer. destruct (gtb (abs v) (Fin (1/2))); reflexivity. Qed.

Lemma propose_straight (x y z v d : R) :
  propose (Vector3.mk (Fin x) (Fin y) (Fin z)) (Fin 0) (Fin v) (Fin d) =
  Vector3.mk (Fin x) (Fin y) (Fin (z - v * d)).
Proof.
  unfold propose, forwardOf, Vector3.addScaledVector, Vector3.applyQuaternion.
  simpl. rewrite sin_0, cos_0. f_equal; f_equal; ring.
Qed.

Lemma inside_plane (x y z : R) :
  -79 <= x <= 79 -> -79 <= z <= 79 ->
  collision (Vector3.mk (Fin x) (Fin y) (Fin z)) [] planeRadius = false.
Proof.
  intros Hx Hz. unfold collision, outOfBounds, gtb, carRadius. simpl.
  now decide_cmp.
Qed.

(** The first frame of the mounted car with the forward key held and no
    obstacle around is not rejected. *)
Lemma free_start :
  collision (proposedPosition holdingForward (Fin (1/10)) initialDrive mountedCar)
            [] planeRadius = false.
Proof.
  unfold proposedPosition. rewrite steer_straight.
  cbn [initialDrive velocity].
  rewrite accelerate_forward_tenth by reflexivity.
  unfold mountedCar, planeRadius. cbn [position sub neg add].
  rewrite propose_straight. apply inside_plane; [lra |].
  unfold Rmin; destruct (Rle_dec _ _); lra.
Qed.

(** C1. On a frame with the car mounted: if the proposed position is
    closer than [carRadius + obstacleRadius = 3.0] to some obstacle (the
    test is [Math.hypot(dx, dz) < 3.0]), or is below
    [-planeRadius + carRadius] or above [planeRadius - carRadius] on the
    x or the z axis, the car keeps its position and the velocity becomes
    zero; otherwise the car is moved to the proposed position. *)
Theorem frame_collision_test
    (keys : Keys.t) (obstacleCenters : list Point) (planeRadius : num)
    (followCam : bool) (delta : num) (st : Drive) (camera : Camera)
    (car : Object3D) :
  carRef st = Some car ->
  let proposed := proposedPosition keys delta st car in
  let st' := fst (frame keys obstacleCenters planeRadius followCam delta st camera) in
  (rejected proposed obstacleCenters planeRadius ->
     carPosition st' = Some (position car) /\ velocity st' = Fin 0)
  /\ (~ rejected proposed obstacleCenters planeRadius ->
     carPosition st' = Some proposed).
Proof.
  intros Hcar proposed st'.
  unfold st'; rewrite (frame_mounted _ _ _ _ _ _ _ _ Hcar).
  fold proposed. rewrite rejected_iff_collision.
  unfold carPosition; simpl.
  destruct (collision proposed obstacleCenters planeRadius); split; intros H;
    try discriminate; auto; now elim H.
Qed.

Lemma frame_collision_test_witness :
  (carPosition (fst (frame forwardLeft blockedStart planeRadius false
                       (Fin (1/10)) initialDrive restCamera))
   = Some (position mountedCar)
   /\ velocity (fst (frame forwardLeft blockedStart planeRadius false
                       (Fin (1/10)) initialDrive restCamera)) = Fin 0)
  /\ carPosition (fst (frame holdingForward [] planeRadius false (Fin (1/10))
                         initialDrive restCamera))
     = Some (proposedPosition holdingForward (Fin (1/10)) initialDrive mountedCar).
Proof.
  split.
  - apply (proj1 (frame_collision_test forwardLeft blockedStart planeRadius
                    false (Fin (1/10)) initialDrive restCamera mountedCar
                    eq_refl)).
    apply rejected_iff_collision. exact blocked_rejected.
  - apply (proj2 (frame_collision_test holdingForward [] planeRadius false
                    (Fin (1/10)) initialDrive restCamera mountedCar eq_refl)).
    rewrite rejected_iff_collision, free_start. discriminate.
Defined.

(** *** Yaw *)

(** C8, as stated, fails: on a rejected frame (position kept, velocity
    zeroed) both [yaw.current] and the car's [rotation.y] have moved,
    here from [0] to [0.12]. *)
Lemma yaw_moves_on_rejected_frame :
  let st' := fst (frame forwardLeft blockedStart planeRadius false (Fin (1/10))
                    initialDrive restCamera) in
  rejected (proposedPosition forwardLeft (Fin (1/10)) initialDrive mountedCar)
           blockedStart planeRadius
  /\ carPosition st' = carPosition initialDrive
  /\ velocity st' = Fin 0
  /\ yaw st' = Fin (12/100)
  /\ yaw st' <> yaw initialDrive
  /\ option_map rotation_y (carRef st') <> option_map rotation_y (carRef initialDrive).
Proof.
  intros st'.
  assert (Hst : st' = mkDrive (Some (mkObject (position mountedCar) (Fin (12/100))))
                              (Fin 0) (Fin (12/100))).
  { unfold st'.
    rewrite (frame_mounted forwardLeft blockedStart planeRadius false
               (Fin (1/10)) initialDrive restCamera mountedCar eq_refl).
    rewrite blocked_rejected, blocked_velocity, blocked_yaw. reflexivity. }
  rewrite Hst. split; [apply rejected_iff_collision, blocked_rejected |].
  repeat split; simpl; intros H; injection H; lra.
Qed.

(** C8 (amended). The steered yaw is committed on every frame with the
    car mounted, whatever the collision test says: [yaw.current] and the
    car's [rotation.y] both take the steered value; a rejected frame
    keeps the position and zeroes the velocity only. *)
Theorem frame_commits_yaw
    (keys : Keys.t) (obstacleCenters : list Point) (planeRadius : num)
    (followCam : bool) (delta : num) (st : Drive) (camera : Camera)
    (car : Object3D) :
  carRef st = Some car ->
  let st' := fst (frame keys obstacleCenters planeRadius followCam delta st camera) in
  let steered := steer keys delta (accelerate keys delta (velocity st)) (yaw st) in
  yaw st' = steered
  /\ option_map rotation_y (carRef st') = Some steered
  /\ (rejected (proposedPosition keys delta st car) obstacleCenters planeRadius ->
      carPosition st' = Some (position car) /\ velocity st' = Fin 0).
Proof.
  intros Hcar st' steered. unfold st'.
  rewrite (frame_mounted _ _ _ _ _ _ _ _ Hcar). fold steered.
  rewrite rejected_iff_collision. cbn [yaw carRef option_map rotation_y].
  repeat split; auto; unfold carPosition; simpl;
    destruct (collision _ _ _); try discriminate; reflexivity.
Qed.

Lemma frame_commits_yaw_witness :
  carRef initialDrive = Some mountedCar
  /\ yaw (fst (frame forwardLeft blockedStart planeRadius false (Fin (1/10))
                 initialDrive restCamera)) =
     steer forwardLeft (Fin (1/10))
           (accelerate forwardLeft (Fin (1/10)) (velocity initialDrive))
           (yaw initialDrive).
Proof.
  split; [reflexivity |].
  apply (frame_commits_yaw forwardLeft blockedStart planeRadius false
           (Fin (1/10)) initialDrive restCamera mountedCar eq_refl).
Defined.

(** *** Velocity *)

Lemma inRange_Fin (r : R) : inRange (Fin r) = true <-> -10 <= r <= 20.
Proof.
  unfold inRange; rewrite andb_true_iff, !leb_Fin; tauto.
Qed.

Lemma inRange_finite (v : num) :
  inRange v = true -> exists r, v = Fin r /\ -10 <= r <= 20.
Proof.
  destruct v as [r| | |]; try (simpl; discriminate).
  intros H; exists r; split; auto; now apply inRange_Fin.
Qed.

Lemma Rsign_pos (r : R) : 0 < r -> Rsign r = Gt.
Proof. intros H; unfold Rsign; now decide_cmp. Qed.

Lemma accelerate_back (keys : Keys.t) (delta v : num) :
  forwardHeld keys = false -> backHeld keys = true ->
  accelerate keys delta v = max (Fin (-10)) (sub v (mul delta (Fin 10))).
Proof. unfold accelerate, forwardHeld, backHeld; now intros -> ->. Qed.

Lemma accelerate_coast (keys : Keys.t) (delta v : num) :
  forwardHeld keys = false -> backHeld keys = false ->
  accelerate keys delta v = mul v (Fin (98/100)).
Proof. unfold accelerate, forwardHeld, backHeld; now intros -> ->. Qed.

Lemma accelerate_range (keys : Keys.t) (delta v : num) :
  leb (Fin 0) delta = true -> inRange v = true ->
  inRange (accelerate keys delta v) = true.
Proof.
  intros Hd Hv.
  destruct (inRange_finite _ Hv) as [r [-> Hr]].
  destruct (forwardHeld keys) eqn:Hf; [| destruct (backHeld keys) eqn:Hb].
  - rewrite accelerate_forward by assumption.
    destruct (leb_zero_cases _ Hd) as [-> | [d [-> Hd0]]].
    + simpl. rewrite Rsign_pos by lra. simpl. apply inRange_Fin; lra.
    + cbn [mul add]. rewrite min_Fin. apply inRange_Fin.
      unfold Rmin; destruct (Rle_dec _ _); nra.
  - rewrite accelerate_back by assumption.
    destruct (leb_zero_cases _ Hd) as [-> | [d [-> Hd0]]].
    + simpl. rewrite Rsign_pos by lra. simpl. apply inRange_Fin; lra.
    + cbn [mul sub neg add]. rewrite max_Fin. apply inRange_Fin.
      unfold Rmax; destruct (Rle_dec _ _); nra.
  - rewrite accelerate_coast by assumption.
    cbn [mul]. apply inRange_Fin; lra.
Qed.

Lemma frame_range (keys : Keys.t) (obs : list Point) (planeRadius : num)
    (followCam : bool) (delta : num) (st : Drive) (camera : Camera) :
  leb (Fin 0) delta = true -> inRange (velocity st) = true ->
  inRange (velocity (fst (frame keys obs planeRadius followCam delta st camera)))
  = true.
Proof.
  intros Hd Hv. destruct (carRef st) as [car|] eqn:Hcar.
  - rewrite (frame_mounted _ _ _ _ _ _ _ _ Hcar). cbn [velocity].
    destruct (collision _ _ _).
    + apply inRange_Fin; lra.
    + now apply accelerate_range.
  - rewrite frame_unmounted by assumption. exact Hv.
Qed.

(** C10. A frame with [delta >= 0] keeps the velocity within
    [[-10, 20]], whatever the keys, the obstacles and the position; and so
    does every run of such frames from a state whose velocity is [0]. *)
Theorem velocity_range_invariant :
  (forall keys obs planeRadius followCam delta st camera,
     leb (Fin 0) delta = true ->
     inRange (velocity st) = true ->
     inRange (velocity
                (fst (frame keys obs planeRadius followCam delta st camera)))
     = true)
  /\ (forall obs planeRadius followCam inputs st camera,
     Forall (fun kd => leb (Fin 0) (snd kd) = true) inputs ->
     velocity st = Fin 0 ->
     inRange (velocity (fst (run obs planeRadius followCam inputs st camera)))
     = true).
Proof.
  split; [exact frame_range |].
  intros obs R followCam inputs st camera Hin Hv.
  assert (Hr : inRange (velocity st) = true)
    by (rewrite Hv; apply inRange_Fin; lra).
  clear Hv. revert st camera Hr.
  induction Hin as [| [keys delta] rest Hd _ IH]; intros st camera Hr.
  - exact Hr.
  - cbn [run].
    pose proof (frame_range keys obs R followCam delta st camera Hd Hr) as H.
    destruct (frame keys obs R followCam delta st camera) as [st' camera'].
    apply IH. exact H.
Qed.

Lemma velocity_range_invariant_witness :
  inRange (velocity
             (fst (run [] planeRadius false
                       [(holdingForward, Fin (1/10)); (Keys.released, PInf)]
                       initialDrive restCamera))) = true.
Proof.
  apply (proj2 velocity_range_invariant).
  - repeat constructor; simpl; apply Rleb_true; lra.
  - reflexivity.
Defined.

Lemma ramp_closed_form (keys : Keys.t) (n : nat) :
  forwardHeld keys = true ->
  velocityAfter keys (Fin (1/10)) n (Fin 0) = Fin (Rmin 20 (INR n)).
Proof.
  intros Hf. induction n as [|n IH].
  - simpl. f_equal. unfold Rmin; destruct (Rle_dec _ _); lra.
  - cbn [velocityAfter]. rewrite IH, accelerate_forward_tenth by assumption.
    rewrite S_INR. f_equal. pose proof (pos_INR n).
    unfold Rmin; repeat destruct (Rle_dec _ _); lra.
Qed.

Lemma coast_closed_form (keys : Keys.t) (delta : num) (v : R) (n : nat) :
  forwardHeld keys = false -> backHeld keys = false ->
  velocityAfter keys delta n (Fin v) = Fin (v * (98/100) ^ n).
Proof.
  intros Hf Hb. induction n as [|n IH].
  - simpl. f_equal. lra.
  - cbn [velocityAfter]. rewrite IH, accelerate_coast by assumption.
    simpl. f_equal. lra.
Qed.

Lemma decay_pow_pos (n : nat) : 0 < (98/100) ^ n.
Proof. apply pow_lt; lra. Qed.

Lemma decay_below (v eps : R) :
  0 < v -> 0 < eps ->
  exists N, forall n, (N <= n)%nat -> v * (98/100) ^ n < eps.
Proof.
  intros Hv He.
  destruct (pow_lt_1_zero (98/100)) with (y := eps / v) as [N HN].
  - rewrite Rabs_pos_eq; lra.
  - apply Rdiv_lt_0_compat; assumption.
  - exists N. intros n Hn.
    specialize (HN n Hn).
    rewrite Rabs_pos_eq in HN by (left; apply decay_pow_pos).
    apply Rmult_lt_compat_l with (r := v) in HN; [| assumption].
    replace (v * (eps / v)) with eps in HN by (field; lra).
    exact HN.
Qed.


Lemma frame_forward_straight (followCam : bool) (camera : Camera)
    (x y z v : R) :
  -79 <= x <= 79 ->
  -79 <= z - Rmin 20 (v + 1) / 10 <= 79 ->
  fst (frame holdingForward [] planeRadius followCam (Fin (1/10))
         (mkDrive (Some (mkObject (Vector3.mk (Fin x) (Fin y) (Fin z)) (Fin 0)))
                  (Fin v) (Fin 0)) camera) =
  mkDrive (Some (mkObject (Vector3.mk (Fin x) (Fin y)
                                      (Fin (z - Rmin 20 (v + 1) / 10))) (Fin 0)))
          (Fin (Rmin 20 (v + 1))) (Fin 0).
Proof.
  intros Hx Hz.
  erewrite frame_mounted by reflexivity.
  cbn [velocity yaw position].
  unfold proposedPosition. cbn [velocity yaw position].
  rewrite steer_straight, accelerate_forward_tenth by reflexivity.
  replace (v + 10 * (1/10)) with (v + 1) by lra.
  set (v' := Rmin 20 (v + 1)) in *.
  rewrite propose_straight.
  replace (z - v' * (1 / 10)) with (z - v' / 10) by lra.
  rewrite inside_plane by assumption. reflexivity.
Qed.

Lemma frame_straightDrive (followCam : bool) (camera : Camera) (k : nat) :
  (k < 20)%nat ->
  fst (frame holdingForward [] planeRadius followCam (Fin (1/10))
         (straightDrive k) camera) = straightDrive (S k).
Proof.
  intros Hk. unfold straightDrive.
  assert (H0 : 0 <= INR k) by apply pos_INR.
  assert (H1 : INR k + 1 <= 20).
  { rewrite <- S_INR. replace 20 with (INR 20) by (simpl; lra).
    apply le_INR. lia. }
  assert (Hmin : Rmin 20 (INR k + 1) = INR k + 1)
    by (unfold Rmin; destruct (Rle_dec _ _); lra).
  rewrite frame_forward_straight.
  - rewrite Hmin, S_INR. do 5 f_equal. field.
  - lra.
  - rewrite Hmin. nra.
Qed.

Lemma frame_camera_free (keys : Keys.t) (obs : list Point) (planeRadius : num)
    (delta : num) (st : Drive) (camera : Camera) :
  snd (frame keys obs planeRadius false delta st camera) = camera.
Proof. unfold frame. destruct (carRef st); reflexivity. Qed.

Lemma run_straightDrive (n k : nat) (camera : Camera) :
  (n + k <= 20)%nat ->
  fst (run [] planeRadius false (forwardFrames n) (straightDrive k) camera)
  = straightDrive (n + k).
Proof.
  revert k. induction n as [|n IH]; intros k Hk; [reflexivity |].
  unfold forwardFrames. cbn [repeat run].
  pose proof (frame_straightDrive false camera k ltac:(lia)) as Hf.
  pose proof (frame_camera_free holdingForward [] planeRadius (Fin (1/10))
                (straightDrive k) camera) as Hc.
  destruct (frame holdingForward [] planeRadius false (Fin (1/10))
              (straightDrive k) camera) as [st' camera'].
  cbn [fst snd] in Hf, Hc. subst st' camera'.
  fold (forwardFrames n). rewrite IH by lia. f_equal. lia.
Qed.

Lemma initialDrive_straight : initialDrive = straightDrive 0.
Proof.
  unfold initialDrive, mountedCar, straightDrive, planeRadius. simpl.
  do 5 f_equal. lra.
Qed.

(** C7. On a frame that is not rejected the new velocity is the
    accelerated one; from the car as mounted, with no obstacle, [n <= 20]
    frames of [delta = 0.1] with the forward key held give velocity [n].
    With a forward key held and [delta = 0.1], each
    step is [v' = min(20, v + 10 * 0.1)]: from [0] the velocity after [n]
    steps is [min(20, n)], so it never decreases, strictly increases
    during the first 20 steps (two seconds) and stays at the cap [20]
    from then on.  With the forward and back keys released each step
    multiplies the velocity by [0.98]: from a positive [v] it stays
    positive, strictly decreases, and falls below every positive bound. *)
Theorem velocity_ramp_and_decay (keys : Keys.t) :
  (forall n, (n <= 20)%nat ->
     velocity (fst (run [] planeRadius false (forwardFrames n)
                        initialDrive restCamera)) = Fin (INR n))
  /\ (forall obs planeRadius followCam delta st camera car,
     carRef st = Some car ->
     ~ rejected (proposedPosition keys delta st car) obs planeRadius ->
     velocity (fst (frame keys obs planeRadius followCam delta st camera)) =
     accelerate keys delta (velocity st))
  /\ (forwardHeld keys = true ->
      let vel n := velocityAfter keys (Fin (1/10)) n (Fin 0) in
      (forall v, accelerate keys (Fin (1/10)) (Fin v) =
                 Fin (Rmin 20 (v + 10 * (1/10))))
      /\ (forall n, vel n = Fin (Rmin 20 (INR n)))
      /\ (forall n, leb (vel n) (vel (S n)) = true)
      /\ (forall n, (n < 20)%nat -> ltb (vel n) (vel (S n)) = true)
      /\ (forall n, (20 <= n)%nat -> vel n = Fin 20))
  /\ (forwardHeld keys = false -> backHeld keys = false ->
      forall (delta : num) (v : R),
      accelerate keys delta (Fin v) = Fin (v * (98/100))
      /\ (forall n, velocityAfter keys delta n (Fin v) = Fin (v * (98/100) ^ n))
      /\ (0 < v -> forall n,
            0 < v * (98/100) ^ (S n) < v * (98/100) ^ n)
      /\ (0 < v -> forall eps, 0 < eps ->
            exists N, forall n, (N <= n)%nat -> v * (98/100) ^ n < eps)).
Proof.
  split; [| split; [| split]].
  - intros n Hn. rewrite initialDrive_straight, run_straightDrive by lia.
    rewrite Nat.add_0_r. reflexivity.
  - intros obs R followCam delta st camera car Hcar Hrej.
    rewrite (frame_mounted _ _ _ _ _ _ _ _ Hcar). cbn [velocity].
    rewrite rejected_iff_collision in Hrej.
    destruct (collision _ _ _); [now elim Hrej | reflexivity].
  - intros Hf vel.
    assert (Hvel : forall n, vel n = Fin (Rmin 20 (INR n)))
      by (intros n; apply ramp_closed_form; assumption).
    split; [intros v; now apply accelerate_forward_tenth |].
    split; [exact Hvel |].
    split; [| split].
    + intros n. rewrite !Hvel, S_INR. apply leb_Fin.
      unfold Rmin; repeat destruct (Rle_dec _ _); lra.
    + intros n Hn. rewrite !Hvel, S_INR. apply ltb_Fin.
      assert (INR n + 1 <= 20).
      { rewrite <- S_INR. replace 20 with (INR 20) by (simpl; lra).
        apply le_INR. lia. }
      unfold Rmin; repeat destruct (Rle_dec _ _); lra.
    + intros n Hn. rewrite Hvel. f_equal.
      apply le_INR in Hn. replace (INR 20) with 20 in Hn by (simpl; lra).
      unfold Rmin; destruct (Rle_dec _ _); lra.
  - intros Hf Hb delta v.
    split; [rewrite accelerate_coast by assumption; reflexivity |].
    split; [intros n; now apply coast_closed_form |].
    split.
    + intros Hv n. pose proof (decay_pow_pos n) as Hp. simpl. nra.
    + intros Hv eps He. now apply decay_below.
Qed.

Lemma velocity_ramp_and_decay_witness :
  velocityAfter holdingForward (Fin (1/10)) 20 (Fin 0) = Fin 20
  /\ accelerate Keys.released (Fin (1/10)) (Fin 20) = Fin (20 * (98/100))
  /\ velocity (fst (run [] planeRadius false (forwardFrames 20)
                       initialDrive restCamera)) = Fin (INR 20).
Proof.
  split; [| split].
  - apply (proj1 (proj2 (proj2 (velocity_ramp_and_decay holdingForward)))
             eq_refl).
    apply Nat.le_refl.
  - apply (proj2 (proj2 (proj2 (velocity_ramp_and_decay Keys.released)))
             eq_refl eq_refl).
  - apply (proj1 (velocity_ramp_and_decay Keys.released)).
    apply Nat.le_refl.
Defined.

(* ================================================================= *)
(** ** Road network builder *)

Section RoadFacts.

Lemma fold_push {A B : Type} (f : A -> B) (l : list A) (acc : list B) :
  fold_left (fun out a => out ++ [f a]) l acc = acc ++ map f l.
Proof.
  revert acc. induction l as [|a l IH]; intros acc; simpl.
  - now rewrite app_nil_r.
  - rewrite IH, <- app_assoc. reflexivity.
Qed.

Lemma roadSegments_map (cities : list City) :
  roadSegments cities = map (roadSegment cities) (seq 0 (length cities)).
Proof.
  unfold roadSegments. destruct cities as [|c cs]; [reflexivity |].
  cbn [length Nat.eqb]. now rewrite fold_push.
Qed.

(** One segment per city, for every number of cities. *)
Lemma roadSegments_length (cities : list City) :
  length (roadSegments cities) = length cities.
Proof. now rewrite roadSegments_map, length_map, length_seq. Qed.

Lemma roadSegments_nth (cities : list City) (i : nat) :
  (i < length cities)%nat ->
  nth_error (roadSegments cities) i = Some (roadSegment cities i).
Proof.
  intros Hi. rewrite roadSegments_map.
  rewrite nth_error_map, nth_error_nth' with (d := 0%nat)
    by now rewrite length_seq.
  now rewrite seq_nth.
Qed.

(** A pair of cities on one finite center gives the all-[NaN] segment. *)
Lemma shared_center_nan (x z : R) (rc rn : num) :
  let dx := sub (Fin x) (Fin x) in
  let dz := sub (Fin z) (Fin z) in
  let dist := hypot dx dz in
  let ux := div dx dist in
  let uz := div dz dist in
  mkSeg (add (Fin x) (mul ux (add rc (Fin 2))))
        (add (Fin z) (mul uz (add rc (Fin 2))))
        (sub (Fin x) (mul ux (add rn (Fin 2))))
        (sub (Fin z) (mul uz (add rn (Fin 2)))) = nanSegment.
Proof.
  cbn [sub neg add hypot].
  replace (x + - x) with 0 by ring. replace (z + - z) with 0 by ring.
  replace (0 * 0 + 0 * 0) with 0 by ring.
  rewrite sqrt_0, div_zero_zero, !mul_NaN_l.
  reflexivity.
Qed.

Lemma roadSegment_degenerate (cities : list City) (i : nat) (x z : R) :
  let curr := nth i cities noCity in
  let next := nth ((i + 1) mod length cities) cities noCity in
  centerX curr = Fin x -> centerZ curr = Fin z ->
  centerX next = Fin x -> centerZ next = Fin z ->
  roadSegment cities i = nanSegment.
Proof.
  intros curr next Hcx Hcz Hnx Hnz. unfold roadSegment.
  fold curr next. rewrite Hcx, Hcz, Hnx, Hnz.
  apply shared_center_nan.
Qed.

End RoadFacts.

(* ================================================================= *)
(** ** Cluster layout generator *)

Section LayoutFacts.

Variable rnd : nat -> R.
Variables (count : nat) (centerX centerZ radius minSep : num).

Lemma clusterLoop_step (fuel : nat) (positions : list Point)
    (attempts s : nat) :
  clusterLoop rnd (S fuel) count centerX centerZ radius minSep
              positions attempts s =
  if (length positions <? count)%nat && (attempts <? count * 50)%nat then
    let p := fst (candidate rnd centerX centerZ radius s) in
    clusterLoop rnd fuel count centerX centerZ radius minSep
      (if separated minSep (fst p) (snd p) positions
       then positions ++ [p] else positions)
      (S attempts) (S (S s))
  else (positions, s).
Proof.
  cbn [clusterLoop].
  destruct ((length positions <? count)%nat && (attempts <? count * 50)%nat);
    reflexivity.
Qed.

(** Any property of the accepted list that holds at the start and is
    kept by every accepted push holds of the result. *)
Lemma clusterLoop_invariant (P : list Point -> Prop) :
  (forall positions s,
     P positions -> (length positions < count)%nat ->
     let p := fst (candidate rnd centerX centerZ radius s) in
     separated minSep (fst p) (snd p) positions = true ->
     P (positions ++ [p])) ->
  forall fuel positions attempts s,
    P positions ->
    P (fst (clusterLoop rnd fuel count centerX centerZ radius minSep
              positions attempts s)).
Proof.
  intros Hpush fuel.
  induction fuel as [|fuel IH]; intros positions attempts s HP; [exact HP |].
  rewrite clusterLoop_step.
  destruct ((length positions <? count)%nat && (attempts <? count * 50)%nat)
    eqn:Hc; [| exact HP].
  apply andb_true_iff in Hc as [Hlen _]. apply Nat.ltb_lt in Hlen.
  cbv zeta. apply IH.
  destruct (separated _ _ _ positions) eqn:Hs; [| exact HP].
  now apply Hpush.
Qed.

(** The loop stops by its own test: fuel beyond the attempts left
    changes nothing. *)
Lemma clusterLoop_fuel (fuel extra : nat) (positions : list Point)
    (attempts s : nat) :
  (count * 50 <= attempts + fuel)%nat ->
  clusterLoop rnd (fuel + extra) count centerX centerZ radius minSep
              positions attempts s =
  clusterLoop rnd fuel count centerX centerZ radius minSep
              positions attempts s.
Proof.
  revert positions attempts s.
  induction fuel as [|fuel IH]; intros positions attempts s Hf.
  - destruct extra as [|extra]; [reflexivity |].
    cbn [Nat.add]. rewrite clusterLoop_step.
    replace (attempts <? count * 50)%nat with false
      by (symmetry; apply Nat.ltb_ge; lia).
    now rewrite andb_false_r.
  - cbn [Nat.add]. rewrite !clusterLoop_step.
    destruct (_ && _); [| reflexivity].
    cbv zeta. apply IH. lia.
Qed.

Lemma generateClusterPositions_length (s : nat) :
  (length (fst (generateClusterPositions rnd count centerX centerZ radius
                  minSep s)) <= count)%nat.
Proof.
  unfold generateClusterPositions.
  apply (clusterLoop_invariant (fun l => (length l <= count)%nat)).
  - intros positions s' _ Hlen p _. rewrite length_app; simpl; lia.
  - simpl; lia.
Qed.

(** Once the loop holds [p] and every candidate is [p] again, too close
    to itself, nothing more is accepted. *)
Lemma clusterLoop_stuck (p : Point) :
  (forall s, fst (candidate rnd centerX centerZ radius s) = p) ->
  separated minSep (fst p) (snd p) [p] = false ->
  forall fuel attempts s,
    fst (clusterLoop rnd fuel count centerX centerZ radius minSep
           [p] attempts s) = [p].
Proof.
  intros Hcand Hsep fuel.
  induction fuel as [|fuel IH]; intros attempts s; [reflexivity |].
  rewrite clusterLoop_step.
  destruct (_ && _); [| reflexivity].
  cbv zeta. rewrite Hcand, Hsep. apply IH.
Qed.

Lemma generateClusterPositions_stuck (p : Point) :
  (forall s, fst (candidate rnd centerX centerZ radius s) = p) ->
  separated minSep (fst p) (snd p) [p] = false ->
  forall s,
    (length (fst (generateClusterPositions rnd count centerX centerZ radius
                    minSep s)) <= 1)%nat.
Proof.
  intros Hcand Hsep s. unfold generateClusterPositions.
  destruct (count * 50)%nat as [|fuel] eqn:Hfuel; [simpl; lia |].
  rewrite clusterLoop_step.
  destruct (_ && _); [| simpl; lia].
  cbv zeta. rewrite Hcand. cbn [separated app].
  rewrite clusterLoop_stuck by assumption. simpl; lia.
Qed.

End LayoutFacts.

Section LayoutGeometry.

Variable rnd : nat -> R.
Hypothesis rnd_unit : unit_draws rnd.
Variables (cx cz radius minSep : R).

Lemma candidate_finite (s : nat) :
  let angle := rnd s * Rtrigo1.PI * 2 in
  let r := R_sqrt.sqrt (rnd (S s)) * radius in
  fst (candidate rnd (Fin cx) (Fin cz) (Fin radius) s) =
  (Fin (cx + Rtrigo_def.cos angle * r), Fin (cz + Rtrigo_def.sin angle * r)).
Proof.
  unfold candidate, bind, random, ret. cbn [fst JS.sqrt].
  rewrite Rltb_false by apply rnd_unit. reflexivity.
Qed.

Lemma candidate_inDisk (s : nat) :
  inDisk (Fin cx) (Fin cz) (Fin radius)
         (fst (candidate rnd (Fin cx) (Fin cz) (Fin radius) s)) = true.
Proof.
  rewrite candidate_finite. unfold inDisk. cbn [fst snd sub neg add hypot abs].
  apply leb_Fin.
  set (t := rnd s * Rtrigo1.PI * 2).
  set (u := rnd (S s)).
  assert (Hu : 0 <= u < 1) by apply rnd_unit.
  assert (Hq : R_sqrt.sqrt u * R_sqrt.sqrt u = u) by (apply sqrt_sqrt; lra).
  pose proof (sin_cos_scaled t (R_sqrt.sqrt u * radius)) as Hsc.
  set (k := R_sqrt.sqrt u * radius) in *.
  assert (Hk : k * k <= radius * radius).
  { unfold k.
    replace (R_sqrt.sqrt u * radius * (R_sqrt.sqrt u * radius))
      with (R_sqrt.sqrt u * R_sqrt.sqrt u * (radius * radius)) by ring.
    rewrite Hq. pose proof (Rle_0_sqr radius) as Hr. unfold Rsqr in Hr. nra. }
  rewrite <- (sqrt_Rsqr_abs radius).
  apply sqrt_le_1_alt. unfold Rsqr.
  replace ((cx + Rtrigo_def.cos t * k + - cx) * (cx + Rtrigo_def.cos t * k + - cx)
           + (cz + Rtrigo_def.sin t * k + - cz) * (cz + Rtrigo_def.sin t * k + - cz))
    with (k * k) by (rewrite <- Hsc; ring).
  exact Hk.
Qed.

Lemma separated_spec (x z : num) (positions : list Point) :
  separated (Fin minSep) x z positions = true <->
  Forall (fun q => ltb (hypot (sub (fst q) x) (sub (snd q) z)) (Fin minSep)
                   = false) positions.
Proof.
  induction positions as [|[px pz] rest IH]; cbn [separated].
  - split; auto.
  - destruct (ltb (hypot (sub px x) (sub pz z)) (Fin minSep)) eqn:E.
    + split; [discriminate |]. intros H; inversion H; subst.
      cbn [fst snd] in *. congruence.
    + rewrite IH. split; [intros H; constructor; auto |].
      intros H; now inversion H.
Qed.

(** For finite points the test of the loop is the separation itself,
    in both directions. *)
Lemma not_close_apart (p q : Point) :
  finitePoint p -> finitePoint q ->
  ltb (hypot (sub (fst q) (fst p)) (sub (snd q) (snd p))) (Fin minSep) = false ->
  apart (Fin minSep) q p = true /\ apart (Fin minSep) p q = true.
Proof.
  intros [px [pz ->]] [qx [qz ->]]. unfold apart.
  cbn [fst snd sub neg add hypot]. rewrite ltb_Fin_false, !leb_Fin.
  intros H; split; [exact H |].
  replace ((px + - qx) * (px + - qx) + (pz + - qz) * (pz + - qz))
    with ((qx + - px) * (qx + - px) + (qz + - pz) * (qz + - pz)) by ring.
  exact H.
Qed.

End LayoutGeometry.

Section OrderedPairs.

Context {A : Type} (rel : A -> A -> Prop).

Lemma ForallOrdPairs_snoc (l : list A) (a : A) :
  ForallOrdPairs rel l -> Forall (fun b => rel b a) l ->
  ForallOrdPairs rel (l ++ [a]).
Proof.
  induction 1 as [|b l Hb Hl IH]; intros Ha; simpl.
  - repeat constructor.
  - inversion Ha; subst. constructor; auto.
    apply Forall_app; split; auto.
Qed.

Lemma ForallOrdPairs_nth (l : list A) :
  ForallOrdPairs rel l ->
  forall i j a b, (i < j)%nat ->
    nth_error l i = Some a -> nth_error l j = Some b -> rel a b.
Proof.
  induction 1 as [|c l Hc Hl IH]; intros i j a b Hij Hi Hj.
  - destruct i; discriminate.
  - destruct j as [|j]; [lia |]. cbn [nth_error] in Hj.
    destruct i as [|i]; cbn [nth_error] in Hi.
    + injection Hi as <-. rewrite Forall_forall in Hc.
      apply Hc. eapply nth_error_In; eauto.
    + apply (IH i j a b); [lia | assumption | assumption].
Qed.

End OrderedPairs.

Section LayoutContract.

Variable rnd : nat -> R.
Hypothesis rnd_unit : unit_draws rnd.
Variables (count : nat) (cx cz radius minSep : R).

Lemma wellPlaced_push (positions : list Point) (s : nat) :
  wellPlaced cx cz radius minSep positions ->
  let p := fst (candidate rnd (Fin cx) (Fin cz) (Fin radius) s) in
  separated (Fin minSep) (fst p) (snd p) positions = true ->
  wellPlaced cx cz radius minSep (positions ++ [p]).
Proof.
  intros [Hdisk Hsep] p Hok.
  assert (Hp : finitePoint p)
    by (unfold p; rewrite candidate_finite by assumption; eexists; eexists;
        reflexivity).
  split.
  - apply Forall_app; split; [assumption |].
    constructor; [| constructor]. split; [assumption |].
    now apply candidate_inDisk.
  - apply ForallOrdPairs_snoc; [assumption |].
    apply separated_spec in Hok.
    rewrite Forall_forall in *. intros q Hq.
    apply not_close_apart; [assumption | now apply Hdisk | now apply Hok].
Qed.

Lemma generateClusterPositions_wellPlaced (s : nat) :
  wellPlaced cx cz radius minSep
    (fst (generateClusterPositions rnd count (Fin cx) (Fin cz)
                     (Fin radius) (Fin minSep) s)).
Proof.
  unfold generateClusterPositions.
  apply (clusterLoop_invariant rnd count (Fin cx) (Fin cz) (Fin radius)
           (Fin minSep) (wellPlaced cx cz radius minSep)).
  - intros positions s' HP _. now apply wellPlaced_push.
  - split; constructor.
Qed.

End LayoutContract.

(** C2. With draws in [[0, 1)] and finite arguments, the generator
    returns at most [count] points, each within distance [|radius|] of
    the center, and any two of them, at different indices, at distance at
    least [minSep]; the loop stops by its own test, whatever bound above
    [count * 50] is put on its iterations. *)
Theorem generateClusterPositions_contract
    (rnd : nat -> R) (count : nat) (cx cz radius minSep : R) (s : nat) :
  unit_draws rnd ->
  let out := fst (generateClusterPositions rnd count (Fin cx) (Fin cz)
                    (Fin radius) (Fin minSep) s) in
  (length out <= count)%nat
  /\ (forall p, In p out -> inDisk (Fin cx) (Fin cz) (Fin radius) p = true)
  /\ (forall i j p q, i <> j ->
        nth_error out i = Some p -> nth_error out j = Some q ->
        apart (Fin minSep) p q = true)
  /\ (forall extra,
        clusterLoop rnd (count * 50 + extra) count (Fin cx) (Fin cz)
                    (Fin radius) (Fin minSep) [] 0 s =
        generateClusterPositions rnd count (Fin cx) (Fin cz) (Fin radius)
                                 (Fin minSep) s).
Proof.
  intros Hrnd out.
  destruct (generateClusterPositions_wellPlaced rnd Hrnd count cx cz radius
              minSep s) as [Hdisk Hsep].
  fold out in Hdisk, Hsep.
  split; [apply generateClusterPositions_length |].
  split; [| split].
  - intros p Hp. rewrite Forall_forall in Hdisk. now apply Hdisk.
  - intros i j p q Hij Hi Hj.
    destruct (Nat.lt_total i j) as [Hlt | [Heq | Hgt]]; [| contradiction |].
    + exact (proj1 (ForallOrdPairs_nth _ _ Hsep i j p q Hlt Hi Hj)).
    + exact (proj2 (ForallOrdPairs_nth _ _ Hsep j i q p Hgt Hj Hi)).
  - intros extra. apply clusterLoop_fuel. lia.
Qed.

Lemma generateClusterPositions_contract_witness :
  (length (fst (generateClusterPositions halfDraws 3 (Fin 0) (Fin 50)
                  (Fin 12) (Fin 5) 0)) <= 3)%nat.
Proof.
  apply (generateClusterPositions_contract halfDraws 3 0 50 12 5 0).
  intros k; unfold halfDraws; lra.
Defined.

(* ================================================================= *)
(** ** City builder *)

Section CityFacts.

Variable rnd : nat -> R.
Variable reposByLanguage : RepoGroup.

Lemma corner_finite (i : nat) :
  exists x z : R,
    nth (i mod length cornerPositions) cornerPositions (NaN, NaN)
    = (Fin x, Fin z).
Proof.
  assert (H : (i mod length cornerPositions < 8)%nat)
    by (apply Nat.mod_upper_bound; discriminate).
  destruct (i mod length cornerPositions)%nat as [|[|[|[|[|[|[|[|k]]]]]]]];
    try lia; simpl; eexists; eexists; reflexivity.
Qed.

(** The city built for [lang]: its fields, and where its building
    positions come from. *)
Lemma buildCity_spec (lang : string) (i s : nat) :
  let city := fst (buildCity rnd reposByLanguage lang i s) in
  language city = lang
  /\ repos city = reposOf reposByLanguage lang
  /\ (exists x z r : R,
        centerX city = Fin x /\ centerZ city = Fin z
        /\ clusterRadius city = Fin r
        /\ (0 <= rnd (S (S s)) < 1 -> 10 <= r < 15))
  /\ buildingPositions city =
     fst (generateClusterPositions rnd (length (repos city)) (centerX city)
            (centerZ city) (clusterRadius city) (Fin 5) (S (S (S s)))).
Proof.
  unfold buildCity, bind, random, ret.
  destruct (corner_finite i) as [x [z ->]].
  fold (reposOf reposByLanguage lang). cbn [fst snd sub neg add mul].
  destruct (generateClusterPositions rnd _ _ _ _ _ _) as [bp s'] eqn:E.
  cbn [fst language repos centerX centerZ clusterRadius buildingPositions].
  rewrite E. repeat split.
  do 3 eexists. repeat split; try reflexivity; lra.
Qed.

Lemma mapCities_cons (lang : string) (rest : list string) (i s : nat) :
  fst (mapCities rnd reposByLanguage (lang :: rest) i s) =
  fst (buildCity rnd reposByLanguage lang i s)
  :: fst (mapCities rnd reposByLanguage rest (S i)
            (snd (buildCity rnd reposByLanguage lang i s))).
Proof.
  cbn [mapCities]. unfold bind, ret.
  destruct (buildCity rnd reposByLanguage lang i s) as [city s1].
  cbn [fst snd].
  destruct (mapCities rnd reposByLanguage rest (S i) s1) as [cities s2].
  reflexivity.
Qed.

Lemma mapCities_Forall (P : City -> Prop) :
  (forall lang i s, P (fst (buildCity rnd reposByLanguage lang i s))) ->
  forall langs i s, Forall P (fst (mapCities rnd reposByLanguage langs i s)).
Proof.
  intros HP langs. induction langs as [|lang rest IH]; intros i s.
  - constructor.
  - rewrite mapCities_cons. constructor; [apply HP | apply IH].
Qed.

Lemma mapCities_map {B : Type} (f : City -> B) (h : string -> B) :
  (forall lang i s, f (fst (buildCity rnd reposByLanguage lang i s)) = h lang) ->
  forall langs i s,
    map f (fst (mapCities rnd reposByLanguage langs i s)) = map h langs.
Proof.
  intros Hf langs. induction langs as [|lang rest IH]; intros i s.
  - reflexivity.
  - rewrite mapCities_cons. cbn [map]. now rewrite Hf, IH.
Qed.

Lemma cityData_languages (s : nat) :
  map language (fst (cityData rnd reposByLanguage s)) = map fst reposByLanguage.
Proof.
  unfold cityData. rewrite (mapCities_map language (fun lang => lang)).
  - apply map_id.
  - intros lang i s'. apply buildCity_spec.
Qed.

Lemma cityData_length (s : nat) :
  length (fst (cityData rnd reposByLanguage s)) = length reposByLanguage.
Proof.
  rewrite <- (length_map language), cityData_languages. apply length_map.
Qed.

Lemma cityData_repos (s : nat) :
  map repos (fst (cityData rnd reposByLanguage s)) =
  map (reposOf reposByLanguage) (map fst reposByLanguage).
Proof.
  unfold cityData. apply mapCities_map.
  intros lang i s'. apply buildCity_spec.
Qed.

Lemma buildCity_shortfall (lang : string) (i s : nat) :
  let city := fst (buildCity rnd reposByLanguage lang i s) in
  (length (buildingPositions city) <= length (repos city))%nat.
Proof.
  intros city.
  destruct (buildCity_spec lang i s) as (_ & _ & _ & Hbp).
  fold city in Hbp. rewrite Hbp. apply generateClusterPositions_length.
Qed.

End CityFacts.

(** C3 (amended). Every city built by [cityData] has at most as many
    building positions as repos. *)
Theorem cityData_buildingPositions_le
    (rnd : nat -> R) (reposByLanguage : RepoGroup) (s : nat) :
  Forall (fun city =>
            (length (buildingPositions city) <= length (repos city))%nat)
         (fst (cityData rnd reposByLanguage s)).
Proof.
  unfold cityData. apply mapCities_Forall.
  intros lang i s'. apply buildCity_shortfall.
Qed.

Section ZeroDraws.

Lemma zeroDraws_unit : unit_draws zeroDraws.
Proof. intros k; unfold zeroDraws; lra. Qed.

Lemma self_too_close (m a b : R) :
  0 < m -> separated (Fin m) (Fin a) (Fin b) [(Fin a, Fin b)] = false.
Proof.
  intros Hm. cbn [separated sub neg add hypot ltb].
  replace ((a + - a) * (a + - a) + (b + - b) * (b + - b)) with 0 by ring.
  rewrite sqrt_0, Rltb_true by assumption. reflexivity.
Qed.

(** When every draw is [0] all candidates of a layout coincide, so at
    most one is accepted. *)
Lemma zeroDraws_one_point (count : nat) (cx cz radius m : R) (s : nat) :
  0 < m ->
  (length (fst (generateClusterPositions zeroDraws count (Fin cx) (Fin cz)
                  (Fin radius) (Fin m) s)) <= 1)%nat.
Proof.
  intros Hm.
  apply generateClusterPositions_stuck
    with (p := fst (candidate zeroDraws (Fin cx) (Fin cz) (Fin radius) 0%nat)).
  - intros s'. rewrite !candidate_finite by apply zeroDraws_unit. reflexivity.
  - rewrite candidate_finite by apply zeroDraws_unit.
    now apply self_too_close.
Qed.

Lemma zeroDraws_one_building (g : RepoGroup) (lang : string) (i s : nat) :
  (length (buildingPositions (fst (buildCity zeroDraws g lang i s))) <= 1)%nat.
Proof.
  destruct (buildCity_spec zeroDraws g lang i s)
    as (_ & _ & (x & z & r & Hx & Hz & Hr & _) & Hbp).
  rewrite Hbp, Hx, Hz, Hr. apply zeroDraws_one_point. lra.
Qed.

Lemma zeroDraws_cities (g : RepoGroup) (s : nat) :
  Forall (fun city => (length (buildingPositions city) <= 1)%nat)
         (fst (cityData zeroDraws g s)).
Proof.
  unfold cityData. apply mapCities_Forall.
  intros lang i s'. apply zeroDraws_one_building.
Qed.

End ZeroDraws.

(* ================================================================= *)
(** ** Crowded layouts *)

Section Crowding.

Variables (cx cz radius : R).
Hypothesis radius_small : Rabs radius < 15.

Lemma Int_part_range (a : R) (n : Z) :
  0 <= a < IZR n -> (0 <= Int_part a < n)%Z.
Proof.
  intros [H0 Hn]. destruct (base_Int_part a) as [Hle Hgt].
  split.
  - apply le_IZR. apply Rnot_lt_le. intros Hneg.
    assert (IZR (Int_part a) <= -1).
    { replace (-1) with (IZR (-1)) by reflexivity. apply IZR_le.
      apply lt_IZR in Hneg. lia. }
    lra.
  - apply lt_IZR. lra.
Qed.

Lemma Int_part_close (a b : R) :
  Int_part a = Int_part b -> Rabs (a - b) < 1.
Proof.
  intros Heq. destruct (base_Int_part a) as [Ha1 Ha2].
  destruct (base_Int_part b) as [Hb1 Hb2]. rewrite Heq in *.
  apply Rabs_def1; lra.
Qed.

Lemma inDisk_coords (x z : R) :
  inDisk (Fin cx) (Fin cz) (Fin radius) (Fin x, Fin z) = true ->
  Rabs (x - cx) < 15 /\ Rabs (z - cz) < 15.
Proof.
  unfold inDisk. cbn [fst snd sub neg add hypot abs]. rewrite leb_Fin.
  intros H.
  set (dx := x + - cx) in *. set (dz := z + - cz) in *.
  assert (Hs : dx * dx + dz * dz < 15 * 15).
  { pose proof (sqrt_pos (dx * dx + dz * dz)) as Hp.
    rewrite <- (sqrt_sqrt (dx * dx + dz * dz)) by nra.
    pose proof (Rabs_pos radius). nra. }
  replace (x - cx) with dx by (unfold dx; ring).
  replace (z - cz) with dz by (unfold dz; ring).
  split; apply Rabs_def1; nra.
Qed.

Lemma cell_in_grid (p : Point) :
  finitePoint p ->
  inDisk (Fin cx) (Fin cz) (Fin radius) p = true ->
  In (cell cx cz p) gridCells.
Proof.
  intros [x [z ->]] Hd. apply inDisk_coords in Hd as [Hx Hz].
  apply Rabs_def2 in Hx, Hz.
  assert (Hrange : forall t, -15 < t < 15 ->
            In (Int_part ((t + 15) / (7/2))) (map Z.of_nat (seq 0 9))).
  { intros t Ht.
    destruct (Int_part_range ((t + 15) / (7/2)) 9) as [H0 H9].
    - split.
      + apply Rmult_le_reg_r with (r := 7/2); [lra |].
        replace ((t + 15) / (7/2) * (7/2)) with (t + 15) by (field; lra). lra.
      + apply Rmult_lt_reg_r with (r := 7/2); [lra |].
        replace ((t + 15) / (7/2) * (7/2)) with (t + 15) by (field; lra). lra.
    - rewrite <- (Z2Nat.id (Int_part ((t + 15) / (7/2)))) by assumption.
      apply in_map, in_seq. lia. }
  unfold cell, gridCells. cbn [coords fst snd].
  apply in_prod; apply Hrange; lra.
Qed.

Lemma same_cell_close (p q : Point) :
  finitePoint p -> finitePoint q ->
  cell cx cz p = cell cx cz q ->
  apart (Fin 5) p q = false.
Proof.
  intros [px [pz ->]] [qx [qz ->]] Hcell.
  unfold cell in Hcell. cbn [coords fst snd] in Hcell.
  injection Hcell as Hx Hz.
  apply Int_part_close in Hx, Hz. apply Rabs_def2 in Hx, Hz.
  assert (Hdx : -(7/2) < px - qx < 7/2).
  { replace (px - qx)
      with (((px - cx + 15) / (7/2) - (qx - cx + 15) / (7/2)) * (7/2))
      by (field; lra). nra. }
  assert (Hdz : -(7/2) < pz - qz < 7/2).
  { replace (pz - qz)
      with (((pz - cz + 15) / (7/2) - (qz - cz + 15) / (7/2)) * (7/2))
      by (field; lra). nra. }
  unfold apart. cbn [fst snd sub neg add hypot leb].
  destruct (Rleb _ _) eqn:E; [| reflexivity].
  apply Rleb_spec in E. exfalso.
  assert (R_sqrt.sqrt ((px + - qx) * (px + - qx) + (pz + - qz) * (pz + - qz)) < 5).
  { apply sqrt_lt_bound; [lra |]. nra. }
  lra.
Qed.

Lemma apart_cells_NoDup (l : list Point) :
  Forall finitePoint l ->
  ForallOrdPairs (fun p q => apart (Fin 5) p q = true /\
                             apart (Fin 5) q p = true) l ->
  NoDup (map (cell cx cz) l).
Proof.
  intros Hfin Hsep. induction Hsep as [|p l Hp Hl IH]; cbn [map].
  - constructor.
  - inversion Hfin as [|? ? Hpf Hlf]; subst. constructor; [| now apply IH].
    intros Hin. apply in_map_iff in Hin as [q [Hq Hinq]].
    rewrite Forall_forall in Hp, Hlf.
    destruct (Hp q Hinq) as [Hpq _].
    rewrite same_cell_close in Hpq; auto. discriminate.
Qed.

End Crowding.

(** A layout in a disk of radius below [15] with separation [5] holds at
    most 81 points, whatever the draws and however many are asked for. *)
Lemma crowded_layout (rnd : nat -> R) (count : nat) (cx cz radius : R)
    (s : nat) :
  unit_draws rnd -> Rabs radius < 15 ->
  (length (fst (generateClusterPositions rnd count (Fin cx) (Fin cz)
                  (Fin radius) (Fin 5) s)) <= 81)%nat.
Proof.
  intros Hrnd Hr.
  destruct (generateClusterPositions_wellPlaced rnd Hrnd count cx cz radius 5 s)
    as [Hdisk Hsep].
  set (out := fst (generateClusterPositions rnd count (Fin cx) (Fin cz)
                     (Fin radius) (Fin 5) s)) in *.
  rewrite <- (length_map (cell cx cz)).
  change 81%nat with (length gridCells).
  apply NoDup_incl_length.
  - apply apart_cells_NoDup; [| assumption].
    eapply Forall_impl; [| exact Hdisk]. now intros p [Hp _].
  - intros c Hc. apply in_map_iff in Hc as [p [<- Hp]].
    rewrite Forall_forall in Hdisk. destruct (Hdisk p Hp) as [Hf Hd].
    now apply cell_in_grid with (radius := radius).
Qed.

(** Whatever the draws in [[0, 1)], a language with a hundred repos gets
    a city with at most 81 building positions. *)
Lemma hundred_repos_fall_short (rnd : nat -> R) (s : nat) :
  unit_draws rnd ->
  exists city,
    fst (cityData rnd hundredRepos s) = [city]
    /\ length (repos city) = 100%nat
    /\ (length (buildingPositions city) <= 81)%nat.
Proof.
  intros Hrnd.
  exists (fst (buildCity rnd hundredRepos "JavaScript" 0%nat s)).
  destruct (buildCity_spec rnd hundredRepos "JavaScript" 0%nat s)
    as (_ & Hrepos & (x & z & r & Hx & Hz & Hr & Hrange) & Hbp).
  split; [| split].
  - unfold cityData, hundredRepos. cbn [map fst]. rewrite mapCities_cons.
    reflexivity.
  - rewrite Hrepos. reflexivity.
  - rewrite Hbp, Hx, Hz, Hr. apply crowded_layout; [assumption |].
    specialize (Hrange (Hrnd _)). rewrite Rabs_pos_eq; lra.
Qed.

(** C3, as stated, fails: when every draw is [0] the candidates of a
    layout all fall on the city center, the second one is never accepted,
    and a language with two repos gets a city with fewer building
    positions than repos. *)
Lemma cityData_short_of_repos :
  exists city,
    fst (cityData zeroDraws twoRepos 0%nat) = [city]
    /\ length (repos city) = 2%nat
    /\ length (buildingPositions city) <> length (repos city).
Proof.
  exists (fst (buildCity zeroDraws twoRepos "JavaScript" 0%nat 0%nat)).
  split; [| split].
  - unfold cityData, twoRepos. cbn [map fst]. rewrite mapCities_cons.
    reflexivity.
  - destruct (buildCity_spec zeroDraws twoRepos "JavaScript" 0%nat 0%nat)
      as (_ & Hrepos & _).
    rewrite Hrepos. reflexivity.
  - destruct (buildCity_spec zeroDraws twoRepos "JavaScript" 0%nat 0%nat)
      as (_ & Hrepos & _).
    rewrite Hrepos.
    pose proof (zeroDraws_one_building twoRepos "JavaScript" 0%nat 0%nat) as H.
    cbn [reposOf lookup twoRepos String.eqb Ascii.eqb Bool.eqb length] in *.
    change (length (reposOf twoRepos "JavaScript")) with 2%nat. lia.
Qed.

(* ================================================================= *)
(** ** Obstacle and tree lists *)

Section ObstacleFacts.

Variable rnd : nat -> R.

(** Planting appends the same new trees, one per building position, to
    both lists. *)
Lemma plantTrees_spec (city : City) (bps : list Point)
    (acc : list Point * list Point) (s : nat) :
  exists ts,
    length ts = length bps
    /\ fst (plantTrees rnd city bps acc s) = (fst acc ++ ts, snd acc ++ ts).
Proof.
  revert acc s. induction bps as [|b bps IH]; intros [obs trees] s.
  - exists []. cbn. now rewrite !app_nil_r.
  - cbn [plantTrees]. unfold bind at 1.
    destruct (treeOf rnd city s) as [t s1].
    destruct (IH (fst (obs, trees) ++ [t], snd (obs, trees) ++ [t]) s1)
      as (ts & Hlen & Heq).
    exists (t :: ts). split; [simpl; lia |].
    rewrite Heq. cbn [fst snd]. now rewrite <- !app_assoc.
Qed.

(** A city contributes its building positions, then one tree for each
    of them. *)
Lemma visitCity_spec (acc : list Point * list Point) (city : City) (s : nat) :
  exists ts,
    length ts = length (buildingPositions city)
    /\ fst (visitCity rnd acc city s) =
       (fst acc ++ buildingPositions city ++ ts, snd acc ++ ts).
Proof.
  unfold visitCity.
  rewrite (fold_push (fun pos => pos)), map_id.
  destruct (plantTrees_spec city (buildingPositions city)
              (fst acc ++ buildingPositions city, snd acc) s)
    as (ts & Hlen & Heq).
  exists ts. split; [assumption |].
  rewrite Heq. cbn [fst snd]. now rewrite <- app_assoc.
Qed.

Lemma forEachCity_length (cities : list City)
    (acc : list Point * list Point) (s : nat) :
  let r := fst (forEachCity rnd cities acc s) in
  length (fst r) = (length (fst acc) + 2 * totalBuildings cities)%nat
  /\ length (snd r) = (length (snd acc) + totalBuildings cities)%nat.
Proof.
  revert acc s. induction cities as [|city cities IH]; intros acc s.
  - cbn. lia.
  - cbn [forEachCity]. unfold bind.
    destruct (visitCity_spec acc city s) as (ts & Hlen & Heq).
    destruct (visitCity rnd acc city s) as [acc' s1]. cbn [fst] in Heq.
    destruct (IH acc' s1) as [Ho Ht]. cbv zeta. rewrite Ho, Ht.
    subst acc'. cbn [fst snd]. rewrite !length_app, Hlen.
    unfold totalBuildings, list_sum. cbn [map fold_right]. lia.
Qed.

Lemma obstacleCenters_length (cities : list City) (s : nat) :
  length (fst (obstacleCenters rnd cities s)) = (2 * totalBuildings cities)%nat.
Proof.
  unfold obstacleCenters, obstaclesAndTrees, bind, ret.
  destruct (forEachCity_length cities ([], []) s) as [Ho _].
  destruct (forEachCity rnd cities ([], []) s) as [r s1].
  cbn [fst] in *. rewrite Ho. reflexivity.
Qed.

Lemma treePositions_length (cities : list City) (s : nat) :
  length (fst (treePositions rnd cities s)) = totalBuildings cities.
Proof.
  unfold treePositions, obstaclesAndTrees, bind, ret.
  destruct (forEachCity_length cities ([], []) s) as [_ Ht].
  destruct (forEachCity rnd cities ([], []) s) as [r s1].
  cbn [fst] in *. rewrite Ht. reflexivity.
Qed.

Lemma totalBuildings_uniform (cities : list City) (k : nat) :
  Forall (fun city => length (buildingPositions city) = k) cities ->
  totalBuildings cities = (length cities * k)%nat.
Proof.
  unfold totalBuildings, list_sum.
  induction 1 as [|city cities Hc _ IH]; cbn [map fold_right length].
  - reflexivity.
  - rewrite IH, Hc. lia.
Qed.

Lemma totalBuildings_bound (cities : list City) (k : nat) :
  Forall (fun city => (length (buildingPositions city) <= k)%nat) cities ->
  (totalBuildings cities <= length cities * k)%nat.
Proof.
  unfold totalBuildings, list_sum.
  induction 1 as [|city cities Hc _ IH]; cbn [map fold_right length]; lia.
Qed.

End ObstacleFacts.

(** C9, as stated, fails: eight cities with three repos each, built by
    [cityData] when every draw is [0], hold one building position apiece
    and yield at most 16 obstacle points, not 48. *)
Lemma obstacles_of_short_cities :
  let cities := fst (cityData zeroDraws eightLanguages 0%nat) in
  let s := snd (cityData zeroDraws eightLanguages 0%nat) in
  length cities = 8%nat
  /\ map (fun city => length (repos city)) cities = [3; 3; 3; 3; 3; 3; 3; 3]%nat
  /\ length (fst (obstacleCenters zeroDraws cities s)) <> 48%nat.
Proof.
  intros cities s. split; [| split].
  - unfold cities. rewrite cityData_length. reflexivity.
  - rewrite <- (map_map repos (@length Repo.t)).
    unfold cities. rewrite cityData_repos. reflexivity.
  - rewrite obstacleCenters_length.
    pose proof (totalBuildings_bound cities 1
                  (zeroDraws_cities eightLanguages 0%nat)) as H.
    unfold cities in H at 2. rewrite cityData_length in H.
    cbn [eightLanguages length] in H. lia.
Qed.

(** C9 (amended). The deriver registers one obstacle per building
    position and one tree obstacle per building position: the obstacle
    count is twice the total number of building positions, the tree count
    is that total, and eight cities with three building positions each
    yield exactly 48 obstacle points, 24 of them trees. *)
Theorem obstacleCenters_count (rnd : nat -> R) (cities : list City) (s : nat) :
  length (fst (obstacleCenters rnd cities s)) = (2 * totalBuildings cities)%nat
  /\ length (fst (treePositions rnd cities s)) = totalBuildings cities
  /\ (length cities = 8%nat ->
      Forall (fun city => length (buildingPositions city) = 3%nat) cities ->
      length (fst (obstacleCenters rnd cities s)) = 48%nat
      /\ length (fst (treePositions rnd cities s)) = 24%nat).
Proof.
  split; [apply obstacleCenters_length |].
  split; [apply treePositions_length |].
  intros Hn Hall.
  rewrite obstacleCenters_length, treePositions_length.
  rewrite (totalBuildings_uniform cities 3 Hall), Hn. split; reflexivity.
Qed.

Lemma obstacleCenters_count_witness :
  length (fst (obstacleCenters halfDraws (repeat threeBuildings 8) 0%nat))
  = 48%nat.
Proof.
  apply (proj2 (proj2 (obstacleCenters_count halfDraws
                         (repeat threeBuildings 8) 0%nat))).
  - reflexivity.
  - repeat constructor.
Defined.

(* ================================================================= *)
(** ** Road endpoints *)

Section RoadGeometry.

Variables (cx cz nx nz : R).
Hypothesis distinct : (cx, cz) <> (nx, nz).

Let dx := nx + - cx.
Let dz := nz + - cz.
Let D := R_sqrt.sqrt (dx * dx + dz * dz).

Lemma distance_pos : 0 < D.
Proof.
  unfold D. apply sqrt_lt_R0.
  destruct (Req_dec dx 0) as [Hx | Hx].
  - destruct (Req_dec dz 0) as [Hz | Hz].
    + exfalso. apply distinct. unfold dx, dz in *. f_equal; lra.
    + rewrite Hx. nra.
  - nra.
Qed.

Lemma distance_sqr : D * D = dx * dx + dz * dz.
Proof. unfold D. apply sqrt_sqrt. nra. Qed.

Lemma unit_vector : dx / D * (dx / D) + dz / D * (dz / D) = 1.
Proof.
  pose proof distance_pos as HD. pose proof distance_sqr as HD2.
  replace (dx / D * (dx / D) + dz / D * (dz / D))
    with ((dx * dx + dz * dz) / (D * D)) by (field; lra).
  rewrite <- HD2. field. lra.
Qed.

(** A point at [k] along the unit vector is at distance [k]. *)
Lemma along_unit_vector (k : R) :
  0 <= k ->
  R_sqrt.sqrt (dx / D * k * (dx / D * k) + dz / D * k * (dz / D * k)) = k.
Proof.
  intros Hk.
  replace (dx / D * k * (dx / D * k) + dz / D * k * (dz / D * k))
    with ((dx / D * (dx / D) + dz / D * (dz / D)) * (k * k)) by ring.
  rewrite unit_vector, Rmult_1_l. now apply sqrt_square.
Qed.

Lemma roadSegment_distinct (cities : list City) (i : nat) (rc rn : R) :
  let curr := nth i cities noCity in
  let next := nth ((i + 1) mod length cities) cities noCity in
  centerX curr = Fin cx -> centerZ curr = Fin cz ->
  clusterRadius curr = Fin rc ->
  centerX next = Fin nx -> centerZ next = Fin nz ->
  clusterRadius next = Fin rn ->
  roadSegment cities i =
  mkSeg (Fin (cx + dx / D * (rc + 2))) (Fin (cz + dz / D * (rc + 2)))
        (Fin (nx + - (dx / D * (rn + 2)))) (Fin (nz + - (dz / D * (rn + 2)))).
Proof.
  intros curr next Hcx Hcz Hrc Hnx Hnz Hrn.
  unfold roadSegment. fold curr next.
  rewrite Hcx, Hcz, Hrc, Hnx, Hnz, Hrn.
  cbn [sub neg add hypot]. fold dx dz D.
  rewrite !div_Fin by (pose proof distance_pos; lra).
  reflexivity.
Qed.

End RoadGeometry.

(** C6. For adjacent cities [curr] and [next] with finite, distinct
    centers and radii with [clusterRadius + 2 >= 0], the segment at
    [curr]'s index starts at distance [curr.clusterRadius + 2] from
    [curr]'s center and ends at distance [next.clusterRadius + 2] from
    [next]'s center, and both endpoints are collinear with the two
    centers. *)
Theorem roadSegment_endpoints
    (cities : list City) (i : nat) (cx cz rc nx nz rn : R) :
  (i < length cities)%nat ->
  let curr := nth i cities noCity in
  let next := nth ((i + 1) mod length cities) cities noCity in
  centerX curr = Fin cx -> centerZ curr = Fin cz ->
  clusterRadius curr = Fin rc ->
  centerX next = Fin nx -> centerZ next = Fin nz ->
  clusterRadius next = Fin rn ->
  (cx, cz) <> (nx, nz) ->
  0 <= rc + 2 -> 0 <= rn + 2 ->
  exists a b c d : R,
    nth_error (roadSegments cities) i =
      Some (mkSeg (Fin a) (Fin b) (Fin c) (Fin d))
    /\ hypot (sub (Fin a) (centerX curr)) (sub (Fin b) (centerZ curr))
       = add (clusterRadius curr) (Fin 2)
    /\ hypot (sub (Fin c) (centerX next)) (sub (Fin d) (centerZ next))
       = add (clusterRadius next) (Fin 2)
    /\ (a - cx) * (nz - cz) = (b - cz) * (nx - cx)
    /\ (c - cx) * (nz - cz) = (d - cz) * (nx - cx).
Proof.
  intros Hi curr next Hcx Hcz Hrc Hnx Hnz Hrn Hne Hc Hn.
  pose proof (distance_pos cx cz nx nz Hne) as HD.
  set (dx := nx + - cx) in *. set (dz := nz + - cz) in *.
  set (D := R_sqrt.sqrt (dx * dx + dz * dz)) in *.
  exists (cx + dx / D * (rc + 2)), (cz + dz / D * (rc + 2)),
         (nx + - (dx / D * (rn + 2))), (nz + - (dz / D * (rn + 2))).
  split; [| split; [| split; [| split]]].
  - rewrite roadSegments_nth by assumption. f_equal.
    now apply roadSegment_distinct.
  - rewrite Hcx, Hcz, Hrc. cbn [sub neg add hypot]. f_equal.
    replace (cx + dx / D * (rc + 2) + - cx) with (dx / D * (rc + 2)) by ring.
    replace (cz + dz / D * (rc + 2) + - cz) with (dz / D * (rc + 2)) by ring.
    now apply along_unit_vector.
  - rewrite Hnx, Hnz, Hrn. cbn [sub neg add hypot]. f_equal.
    replace ((nx + - (dx / D * (rn + 2)) + - nx) * (nx + - (dx / D * (rn + 2)) + - nx)
             + (nz + - (dz / D * (rn + 2)) + - nz) * (nz + - (dz / D * (rn + 2)) + - nz))
      with (dx / D * (rn + 2) * (dx / D * (rn + 2))
            + dz / D * (rn + 2) * (dz / D * (rn + 2))) by ring.
    now apply along_unit_vector.
  - unfold dx, dz. field. fold dx dz D. lra.
  - unfold dx, dz. field. fold dx dz D. lra.
Qed.

Lemma roadSegment_endpoints_witness :
  exists a b c d : R,
    nth_error (roadSegments [westCity; eastCity]) 0 =
      Some (mkSeg (Fin a) (Fin b) (Fin c) (Fin d))
    /\ hypot (sub (Fin a) (Fin (-50))) (sub (Fin b) (Fin 0)) = Fin (12 + 2)
    /\ hypot (sub (Fin c) (Fin 50)) (sub (Fin d) (Fin 0)) = Fin (10 + 2)
    /\ (a - -50) * (0 - 0) = (b - 0) * (50 - -50)
    /\ (c - -50) * (0 - 0) = (d - 0) * (50 - -50).
Proof.
  apply (roadSegment_endpoints [westCity; eastCity] 0 (-50) 0 12 50 0 10);
    try reflexivity.
  - simpl; lia.
  - intros H; injection H; lra.
  - lra.
  - lra.
Defined.

(* ================================================================= *)
(** ** Degenerate road segments *)

(** The road list of a portfolio with a single language. *)
Lemma single_language_roads (rnd : nat -> R) (lang : string) (v : GroupValue)
    (s : nat) :
  roadSegments (fst (cityData rnd [(lang, v)] s)) = [nanSegment].
Proof.
  unfold cityData. cbn [map fst]. rewrite mapCities_cons.
  cbn [mapCities ret fst].
  destruct (buildCity_spec rnd [(lang, v)] lang 0 s)
    as (_ & _ & (x & z & r & Hx & Hz & _) & _).
  set (city := fst (buildCity rnd [(lang, v)] lang 0 s)) in *.
  rewrite roadSegments_map. cbn [length seq map]. f_equal.
  apply (roadSegment_degenerate [city] 0 x z); assumption.
Qed.

(** C4, at a single city. The builder returns one segment for one city,
    not the empty sequence: the wrap-around pairs the city with itself.
    So it is for the cities built from any portfolio with one language.
    (For every [n], [roadSegments_length] gives [n] segments.) *)
Theorem roadSegments_single_city :
  (forall c : City,
     roadSegments [c] = [roadSegment [c] 0]
     /\ length (roadSegments [c]) = 1%nat)
  /\ (forall (rnd : nat -> R) (lang : string) (v : GroupValue) (s : nat),
       length (fst (cityData rnd [(lang, v)] s)) = 1%nat
       /\ length (roadSegments (fst (cityData rnd [(lang, v)] s))) = 1%nat).
Proof.
  split.
  - intros c. split; reflexivity.
  - intros rnd lang v s. rewrite roadSegments_length, cityData_length.
    split; reflexivity.
Qed.

(** C5, at cities on one center. No guard stands before the division by
    the distance: two adjacent cities with the same finite center, and a
    lone city paired with itself, give segments whose four coordinates
    are all [NaN]; so does every portfolio with one language. *)
Theorem roadSegments_shared_center :
  (forall (x z rc rn : R) (l1 l2 : string) (r1 r2 : list Repo.t)
          (b1 b2 : list Point),
     roadSegments [mkCity l1 (Fin x) (Fin z) (Fin rc) r1 b1;
                   mkCity l2 (Fin x) (Fin z) (Fin rn) r2 b2]
     = [nanSegment; nanSegment]
     /\ roadSegments [mkCity l1 (Fin x) (Fin z) (Fin rc) r1 b1] = [nanSegment])
  /\ roadSegments [loneCity] = [nanSegment]
  /\ (forall (rnd : nat -> R) (lang : string) (v : GroupValue) (s : nat),
       roadSegments (fst (cityData rnd [(lang, v)] s)) = [nanSegment]).
Proof.
  split; [| split].
  - intros x z rc rn l1 l2 r1 r2 b1 b2.
    split; rewrite roadSegments_map; cbn [length seq map];
      repeat (f_equal; try (eapply roadSegment_degenerate; reflexivity)).
  - rewrite roadSegments_map; cbn [length seq map]. f_equal.
    eapply roadSegment_degenerate; reflexivity.
  - exact single_language_roads.
Qed.

(* ================================================================= *)
(** ** More on the drive controller *)

Lemma sqrt_ge_bound (a b : R) : 0 <= b -> b * b <= a -> b <= R_sqrt.sqrt a.
Proof.
  intros Hb Hab. rewrite <- (sqrt_square b) at 1 by assumption.
  now apply sqrt_le_1_alt.
Qed.

Lemma frame_keeps_clear (keys : Keys.t) (obs : list Point) (planeRadius : num)
    (followCam : bool) (delta : num) (st : Drive) (camera : Camera) :
  clear obs planeRadius st ->
  clear obs planeRadius
        (fst (frame keys obs planeRadius followCam delta st camera)).
Proof.
  unfold clear. destruct (carRef st) as [car|] eqn:Hcar.
  - intros Hclear. rewrite (frame_mounted _ _ _ _ _ _ _ _ Hcar). cbn [carRef position].
    destruct (collision (proposedPosition keys delta st car) obs planeRadius)
      eqn:Hc; assumption.
  - intros _. rewrite frame_unmounted by assumption. cbn [fst]. now rewrite Hcar.
Qed.

(** X1. A car that stands clear of every obstacle and inside the plane
    stays so through any run of frames: a frame either keeps the position
    or moves to a position that passed the collision test. *)
Theorem run_keeps_clear (obs : list Point) (planeRadius : num)
    (followCam : bool) (inputs : list (Keys.t * num)) (st : Drive)
    (camera : Camera) :
  clear obs planeRadius st ->
  clear obs planeRadius
        (fst (run obs planeRadius followCam inputs st camera)).
Proof.
  revert st camera.
  induction inputs as [|[keys delta] rest IH]; intros st camera Hclear.
  - exact Hclear.
  - cbn [run].
    pose proof (frame_keeps_clear keys obs planeRadius followCam delta st
                  camera Hclear) as H.
    destruct (frame keys obs planeRadius followCam delta st camera)
      as [st' camera'].
    apply IH. exact H.
Qed.

Lemma run_keeps_clear_witness :
  clear blockedStart planeRadius
        (fst (run blockedStart planeRadius false
                  [(forwardLeft, Fin (1/10)); (holdingBack, Fin (1/10))]
                  (mkDrive (Some (mkObject (Vector3.mk (Fin 10) (Fin (1/2)) (Fin 40))
                                           (Fin 0)))
                           (Fin 0) (Fin 0))
                  restCamera)).
Proof.
  apply (run_keeps_clear blockedStart planeRadius false).
  unfold clear, carRef, position, blockedStart.
  rewrite collision_spec. apply orb_false_iff. split.
  - cbn [hitsObstacle Vector3.x Vector3.z sub neg add hypot carRadius
         obstacleRadius ltb].
    rewrite Rltb_false; [reflexivity |].
    apply sqrt_ge_bound; lra.
  - unfold outOfBounds, gtb, planeRadius, carRadius. simpl. now decide_cmp.
Defined.

(** X2. With finite numbers, the proposed position keeps the height and
    lies at distance [|velocity * delta|] from the position, one unit
    forward vector away per unit of [velocity * delta]; so a frame moves
    the car by at most [20 * delta] when the velocity is within its
    clamps. *)
Theorem propose_step_length (x y z angle v delta : R) :
  exists x' z' : R,
    propose (Vector3.mk (Fin x) (Fin y) (Fin z)) (Fin angle) (Fin v) (Fin delta)
    = Vector3.mk (Fin x') (Fin y) (Fin z')
    /\ x' = x - Rtrigo_def.sin angle * (v * delta)
    /\ z' = z - Rtrigo_def.cos angle * (v * delta)
    /\ hypot (sub (Fin x') (Fin x)) (sub (Fin z') (Fin z)) = Fin (Rabs (v * delta))
    /\ (-10 <= v <= 20 -> 0 <= delta ->
        R_sqrt.sqrt ((x' - x) * (x' - x) + (z' - z) * (z' - z)) <= 20 * delta).
Proof.
  exists (x - Rtrigo_def.sin angle * (v * delta)),
         (z - Rtrigo_def.cos angle * (v * delta)).
  set (k := v * delta).
  assert (Hlen : forall a b,
            a = - (k * Rtrigo_def.sin angle) -> b = - (k * Rtrigo_def.cos angle) ->
            R_sqrt.sqrt (a * a + b * b) = Rabs k).
  { intros a b -> ->.
    replace (- (k * Rtrigo_def.sin angle) * - (k * Rtrigo_def.sin angle)
             + - (k * Rtrigo_def.cos angle) * - (k * Rtrigo_def.cos angle))
      with (k * k) by (rewrite <- (sin_cos_scaled angle k); ring).
    apply sqrt_Rsqr_abs. }
  split; [| split; [reflexivity | split; [reflexivity | split]]].
  - unfold propose, forwardOf, Vector3.addScaledVector, Vector3.applyQuaternion.
    simpl. fold k. f_equal; f_equal; ring.
  - cbn [sub neg add hypot]. f_equal. apply Hlen; ring.
  - intros Hv Hd. rewrite (Hlen _ _) by ring.
    unfold k. apply Rabs_le. split; nra.
Qed.

(** X3. Steering needs speed and cancels out: when the updated velocity
    is at most [0.5] in absolute value a frame leaves [yaw.current] as it
    is; with finite numbers, a left and a right key held together leave
    it unchanged too, a left key alone adds [1.2 * delta] and a right key
    alone subtracts it. *)
Theorem steering_law (keys : Keys.t) (delta v : num) (yaw0 d : R) :
  (leb (abs v) (Fin (1/2)) = true -> steer keys delta v (Fin yaw0) = Fin yaw0)
  /\ (gtb (abs v) (Fin (1/2)) = true ->
      let left := Keys.a keys || Keys.ArrowLeft keys in
      let right := Keys.d keys || Keys.ArrowRight keys in
      steer keys (Fin d) v (Fin yaw0) =
      Fin (match left, right with
           | true, true | false, false => yaw0
           | true, false => yaw0 + 12/10 * d
           | false, true => yaw0 - 12/10 * d
           end)).
Proof.
  split.
  - intros Hslow. unfold steer.
    destruct v as [r| | |]; try discriminate.
    cbn [abs gtb ltb leb] in *. apply Rleb_spec in Hslow.
    now rewrite Rltb_false.
  - intros Hfast left right. unfold steer. rewrite Hfast. fold left right.
    destruct left, right; cbn [add sub neg mul]; f_equal; ring.
Qed.

Lemma steering_law_witness :
  steer steeringBoth (Fin (1/10)) (Fin 5) (Fin 1) = Fin 1
  /\ steer steeringBoth (Fin (1/10)) (Fin (1/2)) (Fin 1) = Fin 1.
Proof.
  split.
  - apply (proj2 (steering_law steeringBoth (Fin (1/10)) (Fin 5) 1 (1/10))).
    simpl. rewrite Rabs_pos_eq by lra. apply Rltb_true. lra.
  - apply (proj1 (steering_law steeringBoth (Fin (1/10)) (Fin (1/2)) 1 0)).
    simpl. rewrite Rabs_pos_eq by lra. apply Rleb_true. lra.
Defined.

Lemma propose_step_length_witness :
  exists x' z' : R,
    propose (Vector3.mk (Fin 0) (Fin (1/2)) (Fin 60)) (Fin 0) (Fin 20) (Fin (1/10))
    = Vector3.mk (Fin x') (Fin (1/2)) (Fin z')
    /\ R_sqrt.sqrt ((x' - 0) * (x' - 0) + (z' - 60) * (z' - 60)) <= 20 * (1/10).
Proof.
  destruct (propose_step_length 0 (1/2) 60 0 20 (1/10))
    as (x' & z' & Hp & _ & _ & _ & Hstep).
  exists x', z'. split; [exact Hp |]. apply Hstep; lra.
Defined.

Lemma frame_camera (keys : Keys.t) (obs : list Point) (planeRadius : num)
    (followCam : bool) (delta : num) (st : Drive) (camera : Camera)
    (car : Object3D) :
  carRef st = Some car ->
  snd (frame keys obs planeRadius followCam delta st camera) =
  match followCam,
        carRef (fst (frame keys obs planeRadius followCam delta st camera)) with
  | true, Some car' => follow car' (forwardOf (rotation_y car'))
  | _, _ => camera
  end.
Proof.
  intros Hcar. unfold frame. rewrite Hcar. cbn [fst snd carRef].
  destruct followCam; [| reflexivity].
  destruct (collision _ obs planeRadius); reflexivity.
Qed.

Lemma follow_pose (x y z angle : R) :
  follow (mkObject (Vector3.mk (Fin x) (Fin y) (Fin z)) (Fin angle))
         (forwardOf (Fin angle)) =
  mkCamera
    (Vector3.mk (Fin (x + 6 * Rtrigo_def.sin angle)) (Fin (y + 5/2))
                (Fin (z + 6 * Rtrigo_def.cos angle)))
    (Vector3.mk (Fin (x - 10 * Rtrigo_def.sin angle)) (Fin (y + 1))
                (Fin (z - 10 * Rtrigo_def.cos angle))).
Proof.
  unfold follow, forwardOf, Vector3.applyQuaternion, Vector3.add,
    Vector3.multiplyScalar.
  simpl. f_equal; f_equal; f_equal; ring.
Qed.

(** X4. In follow mode a frame places the camera from the car as the
    frame leaves it: [6] behind the car along its heading and [2.5]
    above it, looking at the point [10] ahead of the car and [1] above
    it; out of follow mode the frame leaves the camera alone. *)
Theorem follow_camera_pose
    (keys : Keys.t) (obs : list Point) (planeRadius delta : num)
    (st : Drive) (camera : Camera) (car : Object3D) :
  carRef st = Some car ->
  snd (frame keys obs planeRadius false delta st camera) = camera
  /\ (forall x y z angle : R,
        carRef (fst (frame keys obs planeRadius true delta st camera))
        = Some (mkObject (Vector3.mk (Fin x) (Fin y) (Fin z)) (Fin angle)) ->
        snd (frame keys obs planeRadius true delta st camera) =
        mkCamera
          (Vector3.mk (Fin (x + 6 * Rtrigo_def.sin angle)) (Fin (y + 5/2))
                      (Fin (z + 6 * Rtrigo_def.cos angle)))
          (Vector3.mk (Fin (x - 10 * Rtrigo_def.sin angle)) (Fin (y + 1))
                      (Fin (z - 10 * Rtrigo_def.cos angle)))).
Proof.
  intros Hcar. split.
  - now rewrite (frame_camera _ _ _ _ _ _ _ _ Hcar).
  - intros x y z angle Hcar'.
    rewrite (frame_camera _ _ _ _ _ _ _ _ Hcar), Hcar'.
    cbn [rotation_y]. apply follow_pose.
Qed.

Lemma follow_camera_pose_witness :
  snd (frame holdingForward [] planeRadius false (Fin (1/10)) (straightDrive 0)
         restCamera) = restCamera
  /\ snd (frame holdingForward [] planeRadius true (Fin (1/10)) (straightDrive 0)
            restCamera) =
     mkCamera
       (Vector3.mk (Fin (0 + 6 * Rtrigo_def.sin 0)) (Fin (1/2 + 5/2))
          (Fin (60 - INR 1 * (INR 1 + 1) / 20 + 6 * Rtrigo_def.cos 0)))
       (Vector3.mk (Fin (0 - 10 * Rtrigo_def.sin 0)) (Fin (1/2 + 1))
          (Fin (60 - INR 1 * (INR 1 + 1) / 20 - 10 * Rtrigo_def.cos 0))).
Proof.
  split.
  - apply (proj1 (follow_camera_pose holdingForward [] planeRadius (Fin (1/10))
                    (straightDrive 0) restCamera _ eq_refl)).
  - apply (proj2 (follow_camera_pose holdingForward [] planeRadius (Fin (1/10))
                    (straightDrive 0) restCamera _ eq_refl)).
    rewrite frame_straightDrive by lia. reflexivity.
Defined.




(* ================================================================= *)
(** ** Keyboard listeners *)

Ltac split_key k :=
  destruct (String.eqb_spec k "w") as [->|?];
  [| destruct (String.eqb_spec k "a") as [->|?];
  [| destruct (String.eqb_spec k "s") as [->|?];
  [| destruct (String.eqb_spec k "d") as [->|?];
  [| destruct (String.eqb_spec k "ArrowUp") as [->|?];
  [| destruct (String.eqb_spec k "ArrowLeft") as [->|?];
  [| destruct (String.eqb_spec k "ArrowDown") as [->|?];
  [| destruct (String.eqb_spec k "ArrowRight") as [->|?];
  [| destruct (String.eqb_spec k "c") as [->|?]]]]]]]]].

Lemma setKey_untracked (keys : Keys.t) (key : string) (v : bool) :
  ~ In key trackedKeys -> setKey keys key v = keys.
Proof.
  intros Hn. unfold setKey.
  split_key key; try reflexivity; exfalso; apply Hn; unfold trackedKeys;
    cbn [In]; tauto.
Qed.

Lemma getKey_setKey (keys : Keys.t) (key name : string) (v : bool) :
  getKey (setKey keys key v) name =
  if String.eqb name key then option_map (fun _ => v) (getKey keys name)
  else getKey keys name.
Proof.
  destruct (String.eqb_spec name key) as [->|Hne].
  - unfold getKey, setKey. split_key key; reflexivity.
  - unfold setKey. split_key key; try reflexivity;
      unfold getKey; split_key name; try reflexivity; congruence.
Qed.

(** X6. The key record behaves as a map over its nine names: after a
    listener stores [v] under [key], reading [key] gives [v] if the name
    is tracked and stays [undefined] otherwise, and every other name
    reads as before.  So an untracked key (such as an upper-case ["W"])
    never changes the record, and a press followed by the release of the
    same key leaves that key released and the others as they were. *)
Theorem key_record_laws (ctl : Controls) (key : string) :
  (forall name v,
     getKey (setKey (keysOf ctl) key v) name =
     if String.eqb name key then option_map (fun _ => v) (getKey (keysOf ctl) name)
     else getKey (keysOf ctl) name)
  /\ (~ In key trackedKeys ->
      keysOf (onKeyDown key ctl) = keysOf ctl
      /\ keysOf (onKeyUp key ctl) = keysOf ctl)
  /\ keysOf (onKeyUp key (onKeyDown key ctl)) = setKey (keysOf ctl) key false
  /\ forwardHeld (keysOf (onKeyDown "W" ctl)) = forwardHeld (keysOf ctl).
Proof.
  split; [intros name v; apply getKey_setKey |].
  split; [intros Hn; split; cbn [onKeyDown onKeyUp keysOf];
          now apply setKey_untracked |].
  split.
  - cbn [onKeyDown onKeyUp keysOf]. unfold setKey.
    split_key key; reflexivity.
  - reflexivity.
Qed.

Lemma key_record_laws_witness :
  keysOf (onKeyDown "Shift" (mkControls holdingForward false)) = holdingForward.
Proof.
  refine (proj1 (proj1 (proj2 (key_record_laws (mkControls holdingForward false)
                                 "Shift")) _)).
  unfold trackedKeys. cbn [In].
  intros H. repeat (destruct H as [H | H]; [discriminate H |]). exact H.
Defined.

Lemma handleKey_follow (e : KeyEvent) (ctl : Controls) :
  followCam (handleKey e ctl) =
  if togglesCamera e then negb (followCam ctl) else followCam ctl.
Proof. destruct e as [key | key]; reflexivity. Qed.

(** X7. Follow mode depends only on how many times the camera key went
    down: after any sequence of keyboard events it is flipped when the
    number of ["c"] or ["C"] key-down events (a held key repeats them) is
    odd and is as before when it is even; key-up events and all other
    keys never touch it. *)
Theorem follow_mode_parity (events : list KeyEvent) (ctl : Controls) :
  followCam (handleKeys events ctl) =
  if Nat.odd (length (filter togglesCamera events))
  then negb (followCam ctl) else followCam ctl.
Proof.
  unfold handleKeys. revert ctl.
  induction events as [|e events IH]; intros ctl; [reflexivity |].
  cbn [fold_left filter]. rewrite IH, handleKey_follow.
  destruct (togglesCamera e); [| reflexivity].
  cbn [length]. rewrite Nat.odd_succ, <- Nat.negb_odd.
  destruct (Nat.odd _), (followCam ctl); reflexivity.
Qed.

(** X8. The free vertical camera: in follow mode the gallery's frame
    callback leaves the camera height alone; out of follow mode, with
    finite numbers, Space alone raises it by [20 * delta], Control alone
    lowers it by as much, and the two together leave it where it was. *)
Theorem free_camera_height (fk : FreeKeys) (delta y : R) :
  (forall d h : num, freeCameraFrame true fk d h = h)
  /\ freeCameraFrame false fk (Fin delta) (Fin y) =
     Fin (match Space fk, Control fk with
          | true, true | false, false => y
          | true, false => y + 20 * delta
          | false, true => y - 20 * delta
          end).
Proof.
  split; [reflexivity |].
  unfold freeCameraFrame. cbn [negb].
  destruct (Space fk), (Control fk); cbn [mul add sub neg]; f_equal; ring.
Qed.

(* ================================================================= *)
(** ** More on the cluster layout generator *)

Section LayoutRun.

Variable rnd : nat -> R.
Variables (count : nat) (centerX centerZ radius minSep : num).

(** The loop after [k] more attempts: two draws per attempt, never more
    than [count * 50] attempts in all, at least one attempt per accepted
    point, and on exit either the list is full or the attempts are used
    up. *)
Lemma clusterLoop_run (fuel : nat) (positions : list Point)
    (attempts s : nat) :
  (count * 50 <= attempts + fuel)%nat ->
  (attempts <= count * 50)%nat ->
  (length positions <= count)%nat ->
  exists k : nat,
    let r := clusterLoop rnd fuel count centerX centerZ radius minSep
                         positions attempts s in
    snd r = (s + 2 * k)%nat
    /\ (attempts + k <= count * 50)%nat
    /\ (length positions <= length (fst r) <= length positions + k)%nat
    /\ (length (fst r) = count \/ (attempts + k = count * 50)%nat).
Proof.
  revert positions attempts s.
  induction fuel as [|fuel IH]; intros positions attempts s Hfuel Hatt Hlen.
  - exists 0%nat. cbn. repeat split; try lia.
  - rewrite clusterLoop_step.
    destruct ((length positions <? count)%nat) eqn:Hl;
      [destruct ((attempts <? count * 50)%nat) eqn:Ha |]; cbn [andb].
    + apply Nat.ltb_lt in Hl, Ha. cbv zeta.
      set (p := fst (candidate rnd centerX centerZ radius s)).
      set (positions' := if separated minSep (fst p) (snd p) positions
                         then positions ++ [p] else positions).
      assert (Hlen' : (length positions <= length positions'
                       <= length positions + 1)%nat).
      { unfold positions'. destruct (separated _ _ _ _);
          [rewrite length_app; simpl |]; lia. }
      destruct (IH positions' (S attempts) (S (S s))) as (k & Hs & Hk & Hl' & Hex);
        try lia.
      exists (S k). cbv zeta in *. repeat split; lia.
    + apply Nat.ltb_ge in Ha. exists 0%nat. cbn. repeat split; try lia.
    + apply Nat.ltb_ge in Hl. exists 0%nat. cbn. repeat split; try lia.
Qed.

(** From an empty list the first candidate is always accepted and stays
    at the head. *)
Lemma clusterLoop_head (p : Point) (fuel : nat) (rest : list Point)
    (attempts s : nat) :
  exists rest',
    fst (clusterLoop rnd fuel count centerX centerZ radius minSep
           (p :: rest) attempts s) = p :: rest'.
Proof.
  apply (clusterLoop_invariant rnd count centerX centerZ radius minSep
           (fun l => exists rest', l = p :: rest')).
  - intros positions s' [rest' ->] _ q _. exists (rest' ++ [q]). reflexivity.
  - exists rest. reflexivity.
Qed.

End LayoutRun.

Lemma generateClusterPositions_head
    (rnd : nat -> R) (count : nat) (centerX centerZ radius minSep : num)
    (s : nat) :
  (1 <= count)%nat ->
  exists rest,
    fst (generateClusterPositions rnd count centerX centerZ radius minSep s)
    = fst (candidate rnd centerX centerZ radius s) :: rest.
Proof.
  intros Hc. unfold generateClusterPositions.
  destruct (count * 50)%nat as [|fuel] eqn:Hf; [lia |].
  rewrite clusterLoop_step.
  replace ((length (@nil Point) <? count)%nat) with true
    by (symmetry; apply Nat.ltb_lt; simpl; lia).
  replace ((0 <? count * 50)%nat) with true
    by (symmetry; apply Nat.ltb_lt; lia).
  cbn [andb separated app]. cbv zeta.
  apply clusterLoop_head.
Qed.

(** X9. The generator never returns an empty list when points are asked
    for: whatever the arguments and the draws, the first candidate is
    accepted and stays first.  Asked for no point, it returns none and
    makes no draw. *)
Theorem generateClusterPositions_first
    (rnd : nat -> R) (count : nat) (centerX centerZ radius minSep : num)
    (s : nat) :
  (generateClusterPositions rnd 0 centerX centerZ radius minSep s = ([], s))
  /\ ((1 <= count)%nat ->
      exists rest,
        fst (generateClusterPositions rnd count centerX centerZ radius minSep s)
        = fst (candidate rnd centerX centerZ radius s) :: rest).
Proof.
  split; [reflexivity |]. apply generateClusterPositions_head.
Qed.

Lemma generateClusterPositions_first_witness :
  exists rest,
    fst (generateClusterPositions zeroDraws 3 NaN (Fin 0) PInf (Fin 5) 0%nat)
    = fst (candidate zeroDraws NaN (Fin 0) PInf 0%nat) :: rest.
Proof.
  apply (proj2 (generateClusterPositions_first zeroDraws 3 NaN (Fin 0) PInf
                  (Fin 5) 0%nat)).
  lia.
Defined.

(** X10. The generator makes two draws per attempt and at most
    [count * 50] attempts, at least one per point it returns; it returns
    fewer than [count] points only when all [count * 50] attempts are
    used up. *)
Theorem generateClusterPositions_attempts
    (rnd : nat -> R) (count : nat) (centerX centerZ radius minSep : num)
    (s : nat) :
  exists attempts : nat,
    let r := generateClusterPositions rnd count centerX centerZ radius minSep s in
    snd r = (s + 2 * attempts)%nat
    /\ (length (fst r) <= attempts <= count * 50)%nat
    /\ (length (fst r) = count \/ attempts = (count * 50)%nat).
Proof.
  unfold generateClusterPositions.
  destruct (clusterLoop_run rnd count centerX centerZ radius minSep
              (count * 50) [] 0 s) as (k & Hs & Hk & Hl & Hex);
    try (simpl; lia).
  exists k. cbv zeta in *. cbn [length] in *. repeat split; lia.
Qed.

(* ================================================================= *)
(** ** More on the city builder *)

Section CityShape.

Variable rnd : nat -> R.
Hypothesis rnd_unit : unit_draws rnd.
Variable reposByLanguage : RepoGroup.

Lemma anchorOf_finite (i : nat) :
  exists ax az : R, anchorOf i = (Fin ax, Fin az).
Proof. apply corner_finite. Qed.

(** The center is the anchor moved by less than [5] on each axis, the
    radius lies in [[10, 15)]. *)
Lemma buildCity_center (lang : string) (i s : nat) :
  let city := fst (buildCity rnd reposByLanguage lang i s) in
  exists ax az x z r : R,
    anchorOf i = (Fin ax, Fin az)
    /\ centerX city = Fin x /\ centerZ city = Fin z
    /\ clusterRadius city = Fin r
    /\ ax - 5 <= x < ax + 5 /\ az - 5 <= z < az + 5 /\ 10 <= r < 15.
Proof.
  unfold buildCity, bind, random, ret. fold (anchorOf i).
  destruct (anchorOf_finite i) as [ax [az ->]].
  cbn [fst snd sub neg add mul].
  destruct (generateClusterPositions rnd _ _ _ _ _ _) as [bp s'].
  cbn [fst centerX centerZ clusterRadius].
  pose proof (rnd_unit s). pose proof (rnd_unit (S s)).
  pose proof (rnd_unit (S (S s))).
  do 5 eexists. repeat split; try reflexivity; lra.
Qed.

Lemma mapCities_nth (langs : list string) (i0 s k : nat) (city : City) :
  nth_error (fst (mapCities rnd reposByLanguage langs i0 s)) k = Some city ->
  exists lang s',
    nth_error langs k = Some lang
    /\ city = fst (buildCity rnd reposByLanguage lang (i0 + k) s').
Proof.
  revert i0 s k. induction langs as [|lang rest IH]; intros i0 s k.
  - destruct k; discriminate.
  - rewrite mapCities_cons. destruct k as [|k]; cbn [nth_error].
    + intros H; injection H as <-. exists lang, s.
      rewrite Nat.add_0_r. split; reflexivity.
    + intros H. apply IH in H as (lang' & s' & Hl & Hc).
      exists lang', s'. split; [assumption |].
      rewrite Hc. f_equal. f_equal. lia.
Qed.

Lemma buildCity_wellPlaced (lang : string) (i s : nat) :
  let city := fst (buildCity rnd reposByLanguage lang i s) in
  Forall (fun p => inDisk (centerX city) (centerZ city) (clusterRadius city) p
                   = true) (buildingPositions city)
  /\ ForallOrdPairs (fun p q => apart (Fin 5) p q = true /\
                                apart (Fin 5) q p = true)
                    (buildingPositions city).
Proof.
  intros city.
  destruct (buildCity_spec rnd reposByLanguage lang i s)
    as (_ & _ & (x & z & r & Hx & Hz & Hr & _) & Hbp).
  fold city in Hx, Hz, Hr, Hbp. rewrite Hbp, Hx, Hz, Hr.
  destruct (generateClusterPositions_wellPlaced rnd rnd_unit
              (length (repos city)) x z r 5 (S (S (S s)))) as [Hd Hs].
  split; [| exact Hs].
  eapply Forall_impl; [| exact Hd]. now intros p [_ Hp].
Qed.

End CityShape.



(** X12. With draws in [[0, 1)], the buildings of every city built by
    [cityData] stand inside the disk of the city (within [clusterRadius]
    of its center), and any two buildings of one city are at least [5]
    apart. *)
Theorem cityData_buildings_placed (rnd : nat -> R) (g : RepoGroup) (s : nat) :
  unit_draws rnd ->
  Forall (fun city =>
            (forall p, In p (buildingPositions city) ->
               leb (hypot (sub (fst p) (centerX city))
                          (sub (snd p) (centerZ city)))
                   (clusterRadius city) = true)
            /\ (forall i j p q, i <> j ->
                  nth_error (buildingPositions city) i = Some p ->
                  nth_error (buildingPositions city) j = Some q ->
                  apart (Fin 5) p q = true))
         (fst (cityData rnd g s)).
Proof.
  intros Hrnd. unfold cityData. apply mapCities_Forall.
  intros lang i s'.
  destruct (buildCity_wellPlaced rnd Hrnd g lang i s') as [Hd Hs].
  destruct (buildCity_center rnd Hrnd g lang i s')
    as (ax & az & x & z & r & _ & _ & _ & Hr & _ & _ & Hrange).
  set (city := fst (buildCity rnd g lang i s')) in *.
  split.
  - intros p Hp. rewrite Forall_forall in Hd. specialize (Hd p Hp).
    unfold inDisk in Hd. rewrite Hr in *. cbn [abs] in Hd.
    rewrite Rabs_pos_eq in Hd by lra. exact Hd.
  - intros i' j p q Hij Hi Hj.
    destruct (Nat.lt_total i' j) as [Hlt | [Heq | Hgt]]; [| contradiction |].
    + exact (proj1 (ForallOrdPairs_nth _ _ Hs i' j p q Hlt Hi Hj)).
    + exact (proj2 (ForallOrdPairs_nth _ _ Hs j i' q p Hgt Hj Hi)).
Qed.

Lemma cityData_buildings_placed_witness :
  Forall (fun city =>
            forall p, In p (buildingPositions city) ->
              leb (hypot (sub (fst p) (centerX city))
                         (sub (snd p) (centerZ city)))
                  (clusterRadius city) = true)
         (fst (cityData halfDraws twoRepos 0%nat)).
Proof.
  eapply Forall_impl;
    [| apply (cityData_buildings_placed halfDraws twoRepos 0%nat);
       intros k; unfold halfDraws; lra].
  intros city [H _]. exact H.
Defined.

Lemma renderFrom_enough (repos : list Repo.t) (bps : list Point) (idx : nat) :
  (idx + length bps <= length repos)%nat ->
  renderFrom repos bps idx =
  Some (combine (firstn (length bps) (skipn idx repos)) bps).
Proof.
  revert idx. induction bps as [|pos rest IH]; intros idx Hlen; [reflexivity |].
  cbn [renderFrom length] in *.
  destruct (nth_error repos idx) as [repo|] eqn:Hn.
  - rewrite IH by lia.
    assert (Hs : skipn idx repos = repo :: skipn (S idx) repos).
    { clear -Hn. revert idx Hn. induction repos as [|r rs IHr]; intros idx Hn.
      - destruct idx; discriminate.
      - destruct idx as [|idx]; cbn in *.
        + now injection Hn as ->.
        + now apply IHr. }
    rewrite Hs. reflexivity.
  - apply nth_error_None in Hn. lia.
Qed.

(** X13. Rendering the buildings of a city built by [cityData] never
    reads past its repos: every building position is paired with the
    repo at its index, so the buildings shown are those of the first
    [len(buildingPositions)] repos, in order, and the repos beyond get no
    building. *)
Theorem renderBuildings_total (rnd : nat -> R) (g : RepoGroup) (s : nat) :
  Forall (fun city =>
            renderBuildings city =
            Some (combine (firstn (length (buildingPositions city)) (repos city))
                          (buildingPositions city)))
         (fst (cityData rnd g s)).
Proof.
  unfold cityData. apply mapCities_Forall. intros lang i s'.
  unfold renderBuildings. rewrite renderFrom_enough.
  - reflexivity.
  - apply buildCity_shortfall.
Qed.

(* ================================================================= *)
(** ** More on the road network builder *)

Lemma anchors_apart (i j : nat) (ax az bx bz : R) :
  i mod 8 <> j mod 8 ->
  anchorOf i = (Fin ax, Fin az) -> anchorOf j = (Fin bx, Fin bz) ->
  20 <= ax - bx \/ 20 <= bx - ax \/ 20 <= az - bz \/ 20 <= bz - az.
Proof.
  unfold anchorOf. change (length cornerPositions) with 8%nat.
  remember (i mod 8)%nat as m eqn:Em. remember (j mod 8)%nat as n eqn:En.
  assert (Hm : (m < 8)%nat) by (subst m; apply Nat.mod_upper_bound; discriminate).
  assert (Hn : (n < 8)%nat) by (subst n; apply Nat.mod_upper_bound; discriminate).
  clear Em En. intros Hne.
  destruct m as [|[|[|[|[|[|[|[|?]]]]]]]]; try lia;
    destruct n as [|[|[|[|[|[|[|[|?]]]]]]]]; try lia;
    try (now elim Hne);
    cbn; intros Ha Hb; injection Ha as <- <-; injection Hb as <- <-; lra.
Qed.

Section RoadsOfCities.

Variable rnd : nat -> R.
Hypothesis rnd_unit : unit_draws rnd.
Variable g : RepoGroup.
Variable s : nat.

Let cities := fst (cityData rnd g s).

Lemma adjacent_anchors (i : nat) :
  (2 <= length cities)%nat -> length cities mod 8 <> 1%nat ->
  (i < length cities)%nat ->
  i mod 8 <> ((i + 1) mod length cities) mod 8.
Proof.
  intros Hn Hmod Hi.
  destruct (Nat.eq_dec (i + 1) (length cities)) as [He | He].
  - rewrite He, Nat.Div0.mod_same. change (0 mod 8)%nat with 0%nat.
    intros H. apply Hmod. rewrite <- He.
    rewrite Nat.Div0.add_mod, H. reflexivity.
  - rewrite (Nat.mod_small (i + 1)) by lia.
    intros H.
    assert (H8 : ((i + 1) mod 8 = (i mod 8 + 1) mod 8)%nat)
      by (rewrite Nat.Div0.add_mod, (Nat.mod_small 1) by lia; reflexivity).
    rewrite <- H in H8.
    assert (Hlt : (i mod 8 < 8)%nat) by (apply Nat.mod_upper_bound; discriminate).
    destruct (Nat.eq_dec (i mod 8) 7) as [E | E].
    + rewrite E in H8. cbn in H8. lia.
    + rewrite (Nat.mod_small (i mod 8 + 1)) in H8 by lia. lia.
Qed.

Lemma city_at (i : nat) :
  (i < length cities)%nat ->
  exists ax az x z r : R,
    anchorOf i = (Fin ax, Fin az)
    /\ centerX (nth i cities noCity) = Fin x
    /\ centerZ (nth i cities noCity) = Fin z
    /\ clusterRadius (nth i cities noCity) = Fin r
    /\ ax - 5 <= x < ax + 5 /\ az - 5 <= z < az + 5 /\ 10 <= r < 15.
Proof.
  intros Hi.
  pose proof (nth_error_nth' cities noCity Hi) as Hn.
  apply (mapCities_nth rnd g (map fst g) 0 s i) in Hn as (lang & s' & _ & Hc).
  rewrite Hc. now apply buildCity_center.
Qed.

Lemma roads_of_cities_finite :
  (2 <= length cities)%nat -> length cities mod 8 <> 1%nat ->
  Forall finiteSegment (roadSegments cities).
Proof.
  intros Hn Hmod. rewrite roadSegments_map.
  apply Forall_forall. intros seg Hin.
  apply in_map_iff in Hin as (i & <- & Hi). apply in_seq in Hi.
  assert (Hj : ((i + 1) mod length cities < length cities)%nat)
    by (apply Nat.mod_upper_bound; lia).
  destruct (city_at i) as (ax & az & x & z & r & Ha & Hx & Hz & Hr & Hxr & Hzr & _);
    [lia |].
  destruct (city_at _ Hj)
    as (bx & bz & x' & z' & r' & Hb & Hx' & Hz' & Hr' & Hxr' & Hzr' & _).
  pose proof (anchors_apart i _ ax az bx bz
                (adjacent_anchors i Hn Hmod ltac:(lia)) Ha Hb) as Hfar.
  assert (Hne : (x, z) <> (x', z')) by (intros E; injection E; lra).
  rewrite (roadSegment_distinct x z x' z' Hne cities i r r' Hx Hz Hr Hx' Hz' Hr').
  do 4 eexists. reflexivity.
Qed.

End RoadsOfCities.

(** X14. With draws in [[0, 1)], the roads of a portfolio with [n >= 2]
    languages have finite coordinates whenever [n mod 8 <> 1]: adjacent
    cities then sit on different anchors, which are at least [20] apart
    on one axis, so no two adjacent centers coincide.  (For [n = 1] and
    for the wrap-around pair when [n mod 8 = 1] the two cities share an
    anchor.) *)
Theorem cityData_roads_finite (rnd : nat -> R) (g : RepoGroup) (s : nat) :
  unit_draws rnd ->
  (2 <= length g)%nat -> length g mod 8 <> 1%nat ->
  length (roadSegments (fst (cityData rnd g s))) = length g
  /\ Forall finiteSegment (roadSegments (fst (cityData rnd g s))).
Proof.
  intros Hrnd Hn Hmod.
  split; [now rewrite roadSegments_length, cityData_length |].
  apply roads_of_cities_finite; rewrite ?cityData_length; assumption.
Qed.

Lemma cityData_roads_finite_witness :
  Forall finiteSegment (roadSegments (fst (cityData halfDraws eightLanguages 0%nat))).
Proof.
  apply (cityData_roads_finite halfDraws eightLanguages 0%nat).
  - intros k; unfold halfDraws; lra.
  - simpl; lia.
  - simpl; lia.
Defined.

(** X15. Between two cities with finite, distinct centers the builder
    lays the same road twice: the segment from the second city back to
    the first is the segment from the first to the second with its
    endpoints exchanged. *)
Theorem two_city_roads (l1 l2 : string) (cx cz rc nx nz rn : R)
    (r1 r2 : list Repo.t) (b1 b2 : list Point) :
  (cx, cz) <> (nx, nz) ->
  exists a b c d : R,
    roadSegments [mkCity l1 (Fin cx) (Fin cz) (Fin rc) r1 b1;
                  mkCity l2 (Fin nx) (Fin nz) (Fin rn) r2 b2]
    = [mkSeg (Fin a) (Fin b) (Fin c) (Fin d);
       mkSeg (Fin c) (Fin d) (Fin a) (Fin b)].
Proof.
  intros Hne.
  assert (Hne' : (nx, nz) <> (cx, cz)) by (intros E; apply Hne; now injection E as -> ->).
  set (c1 := mkCity l1 (Fin cx) (Fin cz) (Fin rc) r1 b1).
  set (c2 := mkCity l2 (Fin nx) (Fin nz) (Fin rn) r2 b2).
  pose proof (distance_pos cx cz nx nz Hne) as HD.
  rewrite roadSegments_map. cbn [length seq map].
  rewrite (roadSegment_distinct cx cz nx nz Hne [c1; c2] 0 rc rn)
    by reflexivity.
  rewrite (roadSegment_distinct nx nz cx cz Hne' [c1; c2] 1 rn rc)
    by reflexivity.
  replace ((cx + - nx) * (cx + - nx) + (cz + - nz) * (cz + - nz))
    with ((nx + - cx) * (nx + - cx) + (nz + - cz) * (nz + - cz)) by ring.
  set (D := R_sqrt.sqrt _) in *.
  exists (cx + (nx + - cx) / D * (rc + 2)), (cz + (nz + - cz) / D * (rc + 2)),
         (nx + - ((nx + - cx) / D * (rn + 2))),
         (nz + - ((nz + - cz) / D * (rn + 2))).
  f_equal. f_equal.
  f_equal; f_equal; field; lra.
Qed.

Lemma two_city_roads_witness :
  exists a b c d : R,
    roadSegments [westCity; eastCity]
    = [mkSeg (Fin a) (Fin b) (Fin c) (Fin d);
       mkSeg (Fin c) (Fin d) (Fin a) (Fin b)].
Proof.
  apply (two_city_roads "Go" "Rust" (-50) 0 12 50 0 10 [] [] [] []).
  intros H; injection H; lra.
Defined.

(* ================================================================= *)
(** ** Road segments for the ground shader *)

Lemma setAt_length {A : Type} (arr : list A) (i : nat) (v : A) :
  length (setAt arr i v) = length arr.
Proof.
  revert i. induction arr as [|a arr IH]; intros [|i]; cbn; auto.
Qed.

Lemma setAt_app {A : Type} (done : list A) (a : A) (rest : list A) (v : A) :
  setAt (done ++ a :: rest) (length done) v = done ++ v :: rest.
Proof. induction done as [|d done IH]; cbn; [reflexivity | now rewrite IH]. Qed.

(** Filling from index [i = length done]: the slots left take the next
    segments, in order, as long as there are both. *)
Lemma fillVec4_spec (segs done pad : list RoadSegment) :
  (length done + length pad = MAX_ROADS)%nat ->
  fillVec4 segs (length done) (done ++ pad) =
  done ++ firstn (length pad) segs ++ skipn (length segs) pad.
Proof.
  revert done pad. induction segs as [|seg segs IH]; intros done pad Hlen.
  - cbn. now rewrite firstn_nil.
  - cbn [fillVec4 length].
    destruct pad as [|p pad].
    + rewrite app_nil_r in *. cbn [length] in Hlen.
      replace (MAX_ROADS <=? length done)%nat with true
        by (symmetry; apply Nat.leb_le; lia).
      assert (Hskip : forall k (l : list RoadSegment) ,
                (MAX_ROADS <= k)%nat -> (length l = MAX_ROADS)%nat ->
                fillVec4 segs k l = l).
      { clear. induction segs as [|seg segs IHs]; intros k l Hk Hl;
          [reflexivity |].
        cbn [fillVec4].
        replace (MAX_ROADS <=? k)%nat with true
          by (symmetry; apply Nat.leb_le; lia).
        apply IHs; lia. }
      rewrite Hskip by lia. cbn. now rewrite app_nil_r.
    + cbn [length] in Hlen.
      replace (MAX_ROADS <=? length done)%nat with false
        by (symmetry; apply Nat.leb_gt; lia).
      rewrite setAt_app.
      replace (done ++ mkSeg (x1 seg) (z1 seg) (x2 seg) (z2 seg) :: pad)
        with ((done ++ [seg]) ++ pad)
        by (rewrite <- app_assoc; destruct seg; reflexivity).
      replace (S (length done)) with (length (done ++ [seg]))
        by (rewrite length_app; simpl; lia).
      rewrite IH by (rewrite length_app; simpl; lia).
      rewrite <- app_assoc. reflexivity.
Qed.

Lemma roadSegmentsVec4_eq (segs : list RoadSegment) :
  roadSegmentsVec4 segs =
  firstn MAX_ROADS segs ++ repeat zeroVec4 (MAX_ROADS - length segs).
Proof.
  unfold roadSegmentsVec4.
  pose proof (fillVec4_spec segs [] (repeat zeroVec4 MAX_ROADS)) as Hf.
  cbn [length app] in Hf. rewrite Hf by (now rewrite repeat_length).
  rewrite repeat_length. f_equal.
  generalize MAX_ROADS as m. generalize (length segs) as n.
  induction n as [|n IHn]; intros [|m]; cbn; auto.
Qed.

(** X16. The array handed to the shader always has [MAX_ROADS = 8]
    entries: the first eight road segments, in order, followed by zero
    vectors when there are fewer than eight; segments beyond the eighth
    are left out. *)
Theorem roadSegmentsVec4_spec (segs : list RoadSegment) :
  length (roadSegmentsVec4 segs) = MAX_ROADS
  /\ roadSegmentsVec4 segs =
     firstn MAX_ROADS segs ++ repeat zeroVec4 (MAX_ROADS - length segs).
Proof.
  split; [| apply roadSegmentsVec4_eq].
  rewrite roadSegmentsVec4_eq, length_app, length_firstn, repeat_length. lia.
Qed.

Lemma skipn_nth_cons {A : Type} (l : list A) (i : nat) (d : A) :
  (i < length l)%nat -> skipn i l = nth i l d :: skipn (S i) l.
Proof.
  revert i. induction l as [|a l IH]; intros i Hi; [simpl in Hi; lia |].
  destruct i as [|i]; [reflexivity |]. cbn [length] in Hi.
  cbn [skipn nth]. rewrite (IH i) by lia. reflexivity.
Qed.

Lemma roadLoop_scan (P : Point) (count : nat) (l pad : list RoadSegment) :
  (length l <= MAX_ROADS)%nat ->
  (forall i, (i < MAX_ROADS)%nat -> (count <= i)%nat <-> (length l <= i)%nat) ->
  forall n i, (i + n = MAX_ROADS)%nat ->
    roadLoop P (Fin 6) count (l ++ pad) i n = existsb (nearSegment P) (skipn i l).
Proof.
  intros Hmax Hcount n. induction n as [|n IH]; intros i Hi.
  - cbn [roadLoop]. rewrite skipn_all2; [reflexivity | lia].
  - cbn [roadLoop].
    assert (Hlt : (i < MAX_ROADS)%nat) by lia.
    destruct (count <=? i)%nat eqn:Hc.
    + apply Nat.leb_le in Hc. apply (Hcount i Hlt) in Hc.
      now rewrite skipn_all2.
    + apply Nat.leb_gt in Hc.
      assert (Hil : (i < length l)%nat).
      { destruct (Nat.le_gt_cases (length l) i) as [H | H]; [| exact H].
        apply (Hcount i Hlt) in H. lia. }
      rewrite (skipn_nth_cons l i zeroVec4 Hil). cbn [existsb].
      rewrite app_nth1 by assumption.
      fold (nearSegment P (nth i l zeroVec4)).
      destruct (nearSegment P (nth i l zeroVec4)); [reflexivity |].
      cbn [orb]. apply IH. lia.
Qed.

(** X17. With the uniforms the gallery sets, a fragment is painted as
    road exactly when it is closer than [6.0] to one of the first eight
    road segments: the zero vectors padding the array are never looked
    at, and a ninth or later segment is never drawn. *)
Theorem onRoad_first_eight (P : Point) (segs : list RoadSegment) :
  onRoad P segs = existsb (nearSegment P) (firstn MAX_ROADS segs).
Proof.
  unfold onRoad. rewrite roadSegmentsVec4_eq.
  rewrite roadLoop_scan with (n := MAX_ROADS) (i := 0%nat);
    [reflexivity | | | reflexivity].
  - rewrite length_firstn. lia.
  - intros i Hi. rewrite length_firstn. unfold MAX_ROADS in *. lia.
Qed.

Section NearestPoint.

Variables (px pz ax az bx bz : R).

Let q := (px + - ax) * (bx + - ax) + (pz + - az) * (bz + - az).
Let ab2 := (bx + - ax) * (bx + - ax) + (bz + - az) * (bz + - az).

Lemma segDist2_nonneg (s : R) : 0 <= segDist2 px pz ax az bx bz s.
Proof.
  unfold segDist2. apply Rplus_le_le_0_compat; apply Rle_0_sqr.
Qed.

Lemma segDist2_diff (s t : R) :
  segDist2 px pz ax az bx bz s - segDist2 px pz ax az bx bz t
  = (s - t) * ((s + t) * ab2 - 2 * q).
Proof. unfold segDist2, ab2, q. ring. Qed.

Lemma segDist2_degenerate (s : R) :
  ab2 = 0 -> segDist2 px pz ax az bx bz s = segDist2 px pz ax az bx bz 0.
Proof.
  intros H0. unfold ab2 in H0.
  destruct (Rplus_sqr_eq_0 (bx + - ax) (bz + - az) H0) as [Hx Hz].
  unfold segDist2.
  replace (bx - ax) with 0 by lra. replace (bz - az) with 0 by lra. ring.
Qed.

Lemma segDist2_clamped (s : R) :
  ab2 <> 0 -> 0 <= s <= 1 ->
  segDist2 px pz ax az bx bz (Rmin (Rmax (q / ab2) 0) 1)
  <= segDist2 px pz ax az bx bz s.
Proof.
  intros Hne Hs.
  assert (Hge : 0 <= ab2)
    by (unfold ab2; apply Rplus_le_le_0_compat; apply Rle_0_sqr).
  assert (Hpos : 0 < ab2).
  { destruct Hge as [Hlt | Heq]; [exact Hlt | now elim Hne]. }
  set (proj := q / ab2).
  assert (Hq : q = proj * ab2) by (unfold proj; field; lra).
  set (t := Rmin (Rmax proj 0) 1).
  assert (Hd : 0 <= segDist2 px pz ax az bx bz s - segDist2 px pz ax az bx bz t);
    [| lra].
  rewrite segDist2_diff, Hq.
  replace ((s - t) * ((s + t) * ab2 - 2 * (proj * ab2)))
    with (ab2 * ((s - t) * (s + t - 2 * proj))) by ring.
  apply Rmult_le_pos; [lra |].
  unfold t, Rmin, Rmax.
  destruct (Rle_dec proj 0) as [Hp | Hp].
  - destruct (Rle_dec 0 1) as [_ | H01]; [| lra].
    apply Rmult_le_pos; lra.
  - destruct (Rle_dec proj 1) as [Hp1 | Hp1].
    + replace (s + proj - 2 * proj) with (s - proj) by ring.
      apply Rle_0_sqr.
    + replace ((s - 1) * (s + 1 - 2 * proj))
        with ((1 - s) * (2 * proj - s - 1)) by ring.
      apply Rmult_le_pos; lra.
Qed.

End NearestPoint.

(** X18. For finite points the shader's [pointToSegmentDist] returns the
    distance from [P] to the nearest point of the segment from [A] to
    [B]: the parameter [t] it leaves lies in [[0, 1]], the distance is
    the one to the point at [t], and no point of the segment is closer.
    For a segment of length zero it returns the distance to [A] with
    [t = 0]. *)
Theorem pointToSegmentDist_nearest (px pz ax az bx bz : R) :
  exists d t : R,
    pointToSegmentDist (Fin px, Fin pz) (Fin ax, Fin az) (Fin bx, Fin bz)
    = (Fin d, Fin t)
    /\ 0 <= t <= 1
    /\ d = R_sqrt.sqrt (segDist2 px pz ax az bx bz t)
    /\ (forall s, 0 <= s <= 1 ->
          d <= R_sqrt.sqrt (segDist2 px pz ax az bx bz s))
    /\ ((ax, az) = (bx, bz) -> t = 0).
Proof.
  unfold pointToSegmentDist, length2, clamp, add2, scale2, sub2, dot2.
  cbn [fst snd sub neg add mul numEqb].
  set (q := (px + - ax) * (bx + - ax) + (pz + - az) * (bz + - az)).
  set (ab2 := (bx + - ax) * (bx + - ax) + (bz + - az) * (bz + - az)).
  assert (Hsq : forall u v : R, Rltb (u * u + v * v) 0 = false).
  { intros u v. apply Rltb_false.
    apply Rplus_le_le_0_compat; apply Rle_0_sqr. }
  destruct (Req_dec ab2 0) as [H0 | H0].
  - rewrite Reqb_true by assumption. cbn [JS.sqrt]. rewrite Hsq.
    exists (R_sqrt.sqrt (segDist2 px pz ax az bx bz 0)), 0.
    split; [| split; [lra | split; [reflexivity | split]]].
    + do 3 f_equal; unfold segDist2; ring.
    + intros s _. rewrite (segDist2_degenerate px pz ax az bx bz s H0). lra.
    + reflexivity.
  - rewrite Reqb_false by assumption. rewrite div_Fin by assumption.
    rewrite max_Fin, min_Fin. cbn [fst snd sub neg add mul JS.sqrt].
    rewrite Hsq.
    set (t := Rmin (Rmax (q / ab2) 0) 1).
    exists (R_sqrt.sqrt (segDist2 px pz ax az bx bz t)), t.
    split; [| split; [| split; [reflexivity | split]]].
    + do 3 f_equal; unfold segDist2; ring.
    + unfold t, Rmin, Rmax.
      destruct (Rle_dec (q / ab2) 0); destruct (Rle_dec _ 1); lra.
    + intros s Hs. apply sqrt_le_1_alt.
      now apply segDist2_clamped.
    + intros Heq. injection Heq as Hx Hz. exfalso. apply H0.
      unfold ab2. rewrite Hx, Hz. ring.
Qed.

Lemma pointToSegmentDist_nearest_witness :
  exists d t : R,
    pointToSegmentDist (Fin 0, Fin 5) (Fin (-10), Fin 0) (Fin 10, Fin 0)
    = (Fin d, Fin t)
    /\ d <= R_sqrt.sqrt (segDist2 0 5 (-10) 0 10 0 (1/2)).
Proof.
  destruct (pointToSegmentDist_nearest 0 5 (-10) 0 10 0)
    as (d & t & Heq & _ & _ & Hmin & _).
  exists d, t. split; [exact Heq |]. apply Hmin. lra.
Defined.

(* ================================================================= *)
(** ** More on the obstacle and tree lists *)

Section TreeFacts.

Variable rnd : nat -> R.

Lemma plantTrees_trees (city : City) (bps : list Point)
    (acc : list Point * list Point) (s : nat) :
  exists ts,
    length ts = length bps
    /\ Forall (fun t => exists s', t = fst (treeOf rnd city s')) ts
    /\ fst (plantTrees rnd city bps acc s) = (fst acc ++ ts, snd acc ++ ts).
Proof.
  revert acc s. induction bps as [|b bps IH]; intros [obs trees] s.
  - exists []. cbn. rewrite !app_nil_r. repeat split. constructor.
  - cbn [plantTrees]. unfold bind at 1.
    destruct (treeOf rnd city s) as [t s1] eqn:Et.
    destruct (IH (fst (obs, trees) ++ [t], snd (obs, trees) ++ [t]) s1)
      as (ts & Hlen & Hts & Heq).
    exists (t :: ts). split; [simpl; lia | split].
    + constructor; [| assumption]. exists s. now rewrite Et.
    + rewrite Heq. cbn [fst snd]. now rewrite <- !app_assoc.
Qed.

Lemma forEachCity_trees (cities : list City)
    (acc : list Point * list Point) (s : nat) :
  exists tss,
    Forall2 (fun city ts =>
               length ts = length (buildingPositions city)
               /\ Forall (fun t => exists s', t = fst (treeOf rnd city s')) ts)
            cities tss
    /\ fst (forEachCity rnd cities acc s) =
       (fst acc ++ cityObstacles cities tss, snd acc ++ concat tss).
Proof.
  revert acc s. induction cities as [|city cities IH]; intros acc s.
  - exists []. cbn. rewrite !app_nil_r. split; [constructor | now destruct acc].
  - cbn [forEachCity]. unfold bind, visitCity.
    rewrite (fold_push (fun pos => pos)), map_id.
    destruct (plantTrees_trees city (buildingPositions city)
                (fst acc ++ buildingPositions city, snd acc) s)
      as (ts & Hlen & Hts & Heq).
    destruct (plantTrees rnd city (buildingPositions city) _ s) as [acc' s1].
    cbn [fst snd] in Heq. subst acc'.
    destruct (IH (fst acc ++ buildingPositions city ++ ts, snd acc ++ ts) s1)
      as (tss & Hall & Hres).
    exists (ts :: tss). split; [constructor; auto |].
    rewrite <- app_assoc. rewrite Hres. cbn [fst snd cityObstacles concat].
    now rewrite <- !app_assoc.
Qed.

End TreeFacts.

(** X19. The obstacle list is, city after city, the building positions
    of the city followed by the trees planted for it, one per building
    position; the tree list holds the same trees in the same order.  So
    every building position and every tree is an obstacle, and there is
    no other obstacle. *)
Theorem obstacles_layout (rnd : nat -> R) (cities : list City) (s : nat) :
  exists tss : list (list Point),
    Forall2 (fun city ts => length ts = length (buildingPositions city))
            cities tss
    /\ fst (obstacleCenters rnd cities s) = cityObstacles cities tss
    /\ fst (treePositions rnd cities s) = concat tss
    /\ (forall p, In p (fst (obstacleCenters rnd cities s)) <->
                  (exists city, In city cities /\ In p (buildingPositions city))
                  \/ In p (fst (treePositions rnd cities s))).
Proof.
  destruct (forEachCity_trees rnd cities ([], []) s) as (tss & Hall & Hres).
  assert (Ho : fst (obstacleCenters rnd cities s) = cityObstacles cities tss).
  { unfold obstacleCenters, obstaclesAndTrees, bind, ret.
    destruct (forEachCity rnd cities ([], []) s) as [r s1].
    cbn [fst] in *. now rewrite Hres. }
  assert (Ht : fst (treePositions rnd cities s) = concat tss).
  { unfold treePositions, obstaclesAndTrees, bind, ret.
    destruct (forEachCity rnd cities ([], []) s) as [r s1].
    cbn [fst] in *. now rewrite Hres. }
  exists tss. split; [| split; [exact Ho | split; [exact Ht |]]].
  - eapply Forall2_impl; [| exact Hall]. now intros city ts [H _].
  - rewrite Ho, Ht. clear Ho Ht Hres. intros p.
    induction Hall as [|city ts cities tss _ _ IH]; cbn [cityObstacles concat].
    + split; [intros [] | intros [(city & [] & _) | []]].
    + rewrite !in_app_iff, IH. split.
      * intros [H | [H | [(c & Hc & Hp) | H]]]; auto.
        -- left. exists city. split; [now left | assumption].
        -- left. exists c. split; [now right | assumption].
      * intros [(c & [<- | Hc] & Hp) | [H | H]]; auto.
        right; right; left. now exists c.
Qed.

Lemma treeOf_annulus (rnd : nat -> R) (city : City) (cx cz r : R) (s : nat) :
  unit_draws rnd ->
  centerX city = Fin cx -> centerZ city = Fin cz -> clusterRadius city = Fin r ->
  0 <= r ->
  exists rho : R,
    hypot (sub (fst (fst (treeOf rnd city s))) (centerX city))
          (sub (snd (fst (treeOf rnd city s))) (centerZ city)) = Fin rho
    /\ 85/100 * r <= rho <= 115/100 * r.
Proof.
  intros Hrnd Hx Hz Hr Hr0.
  unfold treeOf, bind, random, ret, PI. rewrite Hx, Hz, Hr.
  cbn [fst snd sub neg add mul hypot JS.cos JS.sin].
  set (t := rnd s * Rtrigo1.PI * 2).
  set (k := r * (85/100 + rnd (S s) * (3/10))).
  pose proof (Hrnd (S s)) as Hv.
  exists k. split.
  - f_equal.
    replace ((cx + Rtrigo_def.cos t * k + - cx) * (cx + Rtrigo_def.cos t * k + - cx)
             + (cz + Rtrigo_def.sin t * k + - cz) * (cz + Rtrigo_def.sin t * k + - cz))
      with (k * k) by (rewrite <- (sin_cos_scaled t k); ring).
    apply sqrt_square. unfold k. nra.
  - unfold k. nra.
Qed.

Lemma trees_near (rnd : nat -> R) (all cs : list City)
    (tss : list (list Point)) :
  unit_draws rnd ->
  Forall2 (fun city ts =>
             length ts = length (buildingPositions city)
             /\ Forall (fun t => exists s', t = fst (treeOf rnd city s')) ts)
          cs tss ->
  (forall c, In c cs -> In c all) ->
  Forall (fun city =>
            exists x z r, centerX city = Fin x /\ centerZ city = Fin z
                          /\ clusterRadius city = Fin r /\ 10 <= r < 15) cs ->
  Forall (fun t =>
            exists city r rho,
              In city all /\ clusterRadius city = Fin r
              /\ hypot (sub (fst t) (centerX city)) (sub (snd t) (centerZ city))
                 = Fin rho
              /\ 85/100 * r <= rho <= 115/100 * r
              /\ 17/2 <= rho <= 69/4)
         (concat tss).
Proof.
  intros Hrnd Hall.
  induction Hall as [|city ts cs' tss' [_ Hts] _ IH];
    intros Hincl Hcs; cbn [concat]; [constructor |].
  inversion Hcs as [|? ? Hc Hcs']; subst.
  destruct Hc as (x & z & r & Hx & Hz & Hr & Hrange).
  apply Forall_app. split.
  - eapply Forall_impl; [| exact Hts].
    intros t [s0 ->].
    destruct (treeOf_annulus rnd city x z r s0 Hrnd Hx Hz Hr ltac:(lra))
      as (rho & Hrho & Hb).
    exists city, r, rho. repeat split; auto; try lra.
    apply Hincl. now left.
  - apply IH; [| assumption]. intros c Hc. apply Hincl. now right.
Qed.

(** X20. With draws in [[0, 1)], every tree planted for the cities built
    by [cityData] stands between [0.85] and [1.15] times the radius of
    one of the cities away from that city's center, that is between
    [8.5] and [17.25] units from it. *)
Theorem trees_on_the_rim (rnd : nat -> R) (g : RepoGroup) (s s' : nat) :
  unit_draws rnd ->
  let cities := fst (cityData rnd g s) in
  Forall (fun t =>
            exists city r rho,
              In city cities /\ clusterRadius city = Fin r
              /\ hypot (sub (fst t) (centerX city)) (sub (snd t) (centerZ city))
                 = Fin rho
              /\ 85/100 * r <= rho <= 115/100 * r
              /\ 17/2 <= rho <= 69/4)
         (fst (treePositions rnd cities s')).
Proof.
  intros Hrnd cities.
  destruct (forEachCity_trees rnd cities ([], []) s') as (tss & Hall & Hres).
  assert (Ht : fst (treePositions rnd cities s') = concat tss).
  { unfold treePositions, obstaclesAndTrees, bind, ret.
    destruct (forEachCity rnd cities ([], []) s') as [r0 s1].
    cbn [fst] in *. now rewrite Hres. }
  rewrite Ht.
  apply (trees_near rnd cities cities tss Hrnd Hall); [auto |].
  unfold cities, cityData. apply mapCities_Forall. intros lang i s0.
  destruct (buildCity_center rnd Hrnd g lang i s0)
    as (ax & az & x & z & r & _ & Hx & Hz & Hr & _ & _ & Hrange).
  exists x, z, r. auto.
Qed.

Lemma trees_on_the_rim_witness :
  Forall (fun t =>
            exists city r rho,
              In city (fst (cityData halfDraws twoRepos 0%nat))
              /\ clusterRadius city = Fin r
              /\ hypot (sub (fst t) (centerX city)) (sub (snd t) (centerZ city))
                 = Fin rho
              /\ 85/100 * r <= rho <= 115/100 * r
              /\ 17/2 <= rho <= 69/4)
         (fst (treePositions halfDraws (fst (cityData halfDraws twoRepos 0%nat))
                 (snd (cityData halfDraws twoRepos 0%nat)))).
Proof.
  apply (trees_on_the_rim halfDraws twoRepos 0%nat).
  intros k; unfold halfDraws; lra.
Defined.

(* ================================================================= *)
(** ** Building windows *)

(** X21. [BuildingWindows] always makes 15 windows; for a face of finite
    positive width and height every pane (a rectangle of [0.6] times the
    spacing, centered on its window) lies strictly inside the face. *)
Theorem buildingWindows_inside (w h : R) :
  (forall width height : num,
     length (buildingWindows width height) = 15%nat)
  /\ (0 < w -> 0 < h ->
      Forall (fun p =>
                exists wx wy : R,
                  p = (Fin wx, Fin wy)
                  /\ - w / 2 < wx - 3/10 * (w / 4)
                  /\ wx + 3/10 * (w / 4) < w / 2
                  /\ - h / 2 < wy - 3/10 * (h / 6)
                  /\ wy + 3/10 * (h / 6) < h / 2)
             (buildingWindows (Fin w) (Fin h))).
Proof.
  split; [reflexivity |].
  intros Hw Hh. unfold buildingWindows.
  cbn [seq flat_map map app neg].
  rewrite !div_Fin by (simpl; lra). cbn [mul add].
  repeat constructor; eexists; eexists; (split; [reflexivity |]);
    simpl INR; lra.
Qed.

Lemma buildingWindows_inside_witness :
  Forall (fun p =>
            exists wx wy : R,
              p = (Fin wx, Fin wy)
              /\ - 4 / 2 < wx - 3/10 * (4 / 4)
              /\ wx + 3/10 * (4 / 4) < 4 / 2
              /\ - 6 / 2 < wy - 3/10 * (6 / 6)
              /\ wy + 3/10 * (6 / 6) < 6 / 2)
         (buildingWindows (Fin 4) (Fin 6)).
Proof. apply (proj2 (buildingWindows_inside 4 6)); lra. Defined.

(* ================================================================= *)
(** ** The repository hook *)

Section FetchFacts.

Variable api : nat -> Response.

Lemma pagesTo_succ (k : nat) :
  pagesTo api (S k) =
  pagesTo api k ++ match api (S k) with Page data => data | Failure _ => [] end.
Proof.
  unfold pagesTo. rewrite seq_S, flat_map_app. cbn [flat_map Nat.add].
  now rewrite app_nil_r.
Qed.

(** The loop at page [page], with full pages up to [page + n - 1]. *)
Lemma fetchLoop_full (n fuel page : nat) (allRepos : list Raw.t) :
  (forall p, (page <= p < page + n)%nat ->
     exists data, api p = Page data /\ (perPage <= length data)%nat) ->
  (n <= fuel)%nat ->
  fetchLoop api fuel page allRepos =
  fetchLoop api (fuel - n) (page + n)
            (allRepos ++ flat_map (fun p => match api p with
                                            | Page data => data
                                            | Failure _ => []
                                            end) (seq page n)).
Proof.
  revert fuel page allRepos.
  induction n as [|n IH]; intros fuel page allRepos Hfull Hfuel.
  - cbn. now rewrite Nat.sub_0_r, Nat.add_0_r, app_nil_r.
  - destruct fuel as [|fuel]; [lia |].
    cbn [fetchLoop seq flat_map].
    destruct (Hfull page ltac:(lia)) as (data & Hp & Hlen). rewrite Hp.
    replace (length data =? 0)%nat with false
      by (symmetry; apply Nat.eqb_neq; unfold perPage in Hlen; lia).
    replace (length data <? perPage)%nat with false
      by (symmetry; apply Nat.ltb_ge; lia).
    rewrite IH by (try lia; intros p Hp'; apply Hfull; lia).
    cbn [Nat.sub]. replace (page + S n)%nat with (S page + n)%nat by lia.
    now rewrite <- app_assoc.
Qed.

End FetchFacts.

(** X22. If the server answers the pages [1] to [k - 1] with full pages
    (at least [perPage = 100] repos) and page [k] with fewer, the loop
    stops after [k] fetches with the repos of the pages [1] to [k] in
    order; the hook then holds their grouping, is no longer loading and
    has no error, and [App] shows the gallery. *)
Theorem fetch_until_short_page (username : string) (api : nat -> Response)
    (k fuel : nat) (last : list Raw.t) (grouped : RepoGroup) :
  (forall p, (1 <= p < k)%nat ->
     exists data, api p = Page data /\ (perPage <= length data)%nat) ->
  (1 <= k)%nat ->
  api k = Page last -> (length last < perPage)%nat ->
  (k <= fuel)%nat ->
  fetchLoop api fuel 1 [] = Some (inr (pagesTo api k))
  /\ (username <> ""%string ->
      groupRepos (pagesTo api k) = Some grouped ->
      useGitHubRepos username api fuel = Some (mkHook grouped false None)
      /\ App (mkHook grouped false None) = GalleryView grouped).
Proof.
  intros Hfull Hk Hlast Hshort Hfuel.
  assert (Hloop : fetchLoop api fuel 1 [] = Some (inr (pagesTo api k))).
  { destruct k as [|k]; [lia |].
    rewrite (fetchLoop_full api k fuel 1 []) by (try lia; intros p Hp; apply Hfull; lia).
    cbn [app]. replace (1 + k)%nat with (S k) by lia.
    destruct (fuel - k)%nat as [|fuel'] eqn:Hf; [lia |].
    cbn [fetchLoop]. rewrite Hlast.
    fold (pagesTo api k). rewrite pagesTo_succ, Hlast.
    destruct (length last =? 0)%nat eqn:He.
    - apply Nat.eqb_eq in He. destruct last; [| discriminate].
      now rewrite app_nil_r.
    - replace (length last <? perPage)%nat with true
        by (symmetry; apply Nat.ltb_lt; lia).
      reflexivity. }
  split; [exact Hloop |].
  intros Hname Hgroup. split; [| reflexivity].
  unfold useGitHubRepos.
  replace (String.eqb username "") with false
    by (symmetry; now apply String.eqb_neq).
  now rewrite Hloop, Hgroup.
Qed.

Lemma fetch_until_short_page_witness :
  useGitHubRepos "whatiskeptiname" smallAccount 1 =
  Some (mkHook [("JavaScript"%string,
                 Repos [toRepo (sampleRaw "portfolio" (Some "JavaScript"%string));
                        toRepo (sampleRaw "site" (Some "JavaScript"%string))]);
                ("Other"%string, Repos [toRepo (sampleRaw "notes" None)])]
               false None).
Proof.
  refine (proj1 (proj2 (fetch_until_short_page "whatiskeptiname" smallAccount
                          1 1 _ _ _ _ eq_refl _ _) _ _)).
  - intros p Hp. lia.
  - lia.
  - unfold perPage. simpl. lia.
  - lia.
  - discriminate.
  - reflexivity.
Defined.

(** X23. A failure ends the load with nothing shown: without a username
    no page is fetched at all, and if a page fails after full pages only,
    the hook ends with that error, an empty grouping (the repos of the
    pages already fetched are dropped) and [loading] false, and [App]
    shows the error. *)
Theorem fetch_failure_drops_all (username : string) (api : nat -> Response)
    (j fuel : nat) (e : FetchError) :
  useGitHubRepos "" api fuel = Some (mkHook [] false (Some NoUsername))
  /\ ((forall p, (1 <= p < j)%nat ->
         exists data, api p = Page data /\ (perPage <= length data)%nat) ->
      (1 <= j)%nat -> api j = Failure e -> (j <= fuel)%nat ->
      username <> ""%string ->
      useGitHubRepos username api fuel
      = Some (mkHook [] false (Some (FetchFailed e)))
      /\ App (mkHook [] false (Some (FetchFailed e)))
         = ErrorView (Some (FetchFailed e))).
Proof.
  split; [reflexivity |].
  intros Hfull Hj Hfail Hfuel Hname. split; [| reflexivity].
  unfold useGitHubRepos.
  replace (String.eqb username "") with false
    by (symmetry; now apply String.eqb_neq).
  destruct j as [|j]; [lia |].
  rewrite (fetchLoop_full api j fuel 1 [])
    by (try lia; intros p Hp; apply Hfull; lia).
  replace (1 + j)%nat with (S j) by lia.
  destruct (fuel - j)%nat as [|fuel'] eqn:Hf; [lia |].
  cbn [fetchLoop]. now rewrite Hfail.
Qed.

Lemma fetch_failure_drops_all_witness :
  useGitHubRepos "whatiskeptiname" brokenServer 5
  = Some (mkHook [] false
            (Some (FetchFailed (HttpStatus 403 "rate limit exceeded")))).
Proof.
  refine (proj1 (proj2 (fetch_failure_drops_all "whatiskeptiname" brokenServer
                          1 5 _) _ _ eq_refl _ _)).
  - intros p Hp. lia.
  - lia.
  - lia.
  - discriminate.
Defined.

(** X24. The loop ends only on a failure or on a page shorter than
    [perPage]: against a server whose every page is full it is still
    fetching after any number of fetches, and the hook stays in its
    loading state. *)
Theorem fetch_never_ends (username : string) (api : nat -> Response)
    (fuel : nat) :
  (forall p, (1 <= p)%nat ->
     exists data, api p = Page data /\ (perPage <= length data)%nat) ->
  fetchLoop api fuel 1 [] = None
  /\ (username <> ""%string -> useGitHubRepos username api fuel = None).
Proof.
  intros Hfull.
  assert (Hloop : fetchLoop api fuel 1 [] = None).
  { rewrite (fetchLoop_full api fuel fuel 1 [])
      by (try lia; intros p Hp; apply Hfull; lia).
    now rewrite Nat.sub_diag. }
  split; [exact Hloop |].
  intros Hname. unfold useGitHubRepos.
  replace (String.eqb username "") with false
    by (symmetry; now apply String.eqb_neq).
  now rewrite Hloop.
Qed.

Lemma fetch_never_ends_witness :
  useGitHubRepos "whatiskeptiname" endlessServer 1000 = None.
Proof.
  refine (proj2 (fetch_never_ends "whatiskeptiname" endlessServer 1000 _) _).
  - intros p _. eexists. split; [reflexivity |]. now rewrite repeat_length.
  - discriminate.
Defined.

Section GroupingFacts.

Lemma existsb_eqb_In (lang : string) (l : list string) :
  existsb (String.eqb lang) l = true <-> In lang l.
Proof.
  rewrite existsb_exists. split.
  - intros (x & Hx & He). apply String.eqb_eq in He. now subst.
  - intros H. exists lang. split; [assumption | apply String.eqb_refl].
Qed.

Lemma pushRepo_keys (g : RepoGroup) (lang : string) (r : Repo.t) :
  map fst (pushRepo g lang r) =
  if existsb (String.eqb lang) (map fst g) then map fst g
  else map fst g ++ [lang].
Proof.
  induction g as [|[k v] g IH]; [reflexivity |].
  cbn [pushRepo map fst existsb].
  rewrite (String.eqb_sym lang k).
  destruct (String.eqb k lang); cbn [orb map fst]; [reflexivity |].
  rewrite IH. now destruct (existsb _ _).
Qed.

Lemma pushRepo_reposOf (g : RepoGroup) (lang lang' : string) (r : Repo.t) :
  Forall (fun kv => exists r l, snd kv = Repos (r :: l)) g ->
  reposOf (pushRepo g lang r) lang' =
  if String.eqb lang lang' then reposOf g lang' ++ [r] else reposOf g lang'.
Proof.
  unfold reposOf. intros Hg. induction Hg as [|[k v] g (r0 & l0 & Hv) _ IH].
  - cbn. now destruct (String.eqb lang lang').
  - cbn [snd] in Hv. subst v. cbn [pushRepo lookup].
    destruct (String.eqb_spec k lang) as [-> | Hk]; cbn [lookup].
    + destruct (String.eqb_spec lang lang') as [-> | Hl]; reflexivity.
    + destruct (String.eqb_spec k lang') as [-> | Hk'].
      * destruct (String.eqb_spec lang lang') as [-> | Hl];
          [congruence | reflexivity].
      * exact IH.
Qed.

Lemma pushRepo_wellGrouped (g : RepoGroup) (lang : string) (r : Repo.t) :
  wellGrouped g -> wellGrouped (pushRepo g lang r).
Proof.
  intros [Hnd Hv]. split.
  - rewrite pushRepo_keys.
    destruct (existsb (String.eqb lang) (map fst g)) eqn:E; [assumption |].
    apply NoDup_app; [assumption | repeat constructor; intros [] |].
    intros x Hx [<- | []].
    apply existsb_eqb_In in Hx. congruence.
  - clear Hnd. induction Hv as [|[k v] g (r0 & l0 & Hr) Hv' IH]; cbn [pushRepo].
    + repeat constructor. now exists r, [].
    + cbn [snd] in Hr. subst v. destruct (String.eqb k lang).
      * constructor; [| assumption]. now exists r0, (l0 ++ [r]).
      * constructor; [now exists r0, l0 | exact IH].
Qed.

Lemma group_fold (all : list Raw.t) (g0 : RepoGroup) :
  wellGrouped g0 ->
  Forall (fun raw => isInherited (langOf raw) = false) all ->
  exists g,
    fold_left groupStep all (Some g0) = Some g
    /\ wellGrouped g
    /\ map fst g = map fst g0 ++ languagesOf all (map fst g0)
    /\ (forall lang, reposOf g lang = reposOf g0 lang ++ reposIn lang all).
Proof.
  intros Hwf Hall. revert g0 Hwf.
  induction Hall as [|raw all Hraw _ IH]; intros g0 Hwf.
  - exists g0. split; [reflexivity |]. split; [assumption |].
    split; [cbn; now rewrite app_nil_r |].
    intros lang. unfold reposIn. cbn. now rewrite app_nil_r.
  - cbn [fold_left groupStep]. rewrite Hraw.
    destruct (IH (pushRepo g0 (langOf raw) (toRepo raw))
                (pushRepo_wellGrouped _ _ _ Hwf)) as (g & Hg & Hwg & Hk & Hr).
    exists g. split; [exact Hg | split; [exact Hwg | split]].
    + rewrite Hk, pushRepo_keys. cbn [languagesOf].
      destruct (existsb (String.eqb (langOf raw)) (map fst g0));
        [reflexivity | now rewrite <- app_assoc].
    + intros lang. rewrite Hr, pushRepo_reposOf by apply Hwf.
      unfold reposIn. cbn [filter].
      destruct (String.eqb (langOf raw) lang); cbn [map];
        [now rewrite <- app_assoc | reflexivity].
Qed.

Lemma group_fold_None (all : list Raw.t) :
  fold_left groupStep all None = None.
Proof. induction all; cbn; auto. Qed.

Lemma groupRepos_Some (all : list Raw.t) (g : RepoGroup) :
  groupRepos all = Some g ->
  Forall (fun raw => isInherited (langOf raw) = false) all.
Proof.
  unfold groupRepos. generalize (@nil (string * GroupValue)) as g0.
  induction all as [|raw all IH]; intros g0 H; [constructor |].
  cbn [fold_left groupStep] in H.
  destruct (isInherited (langOf raw)) eqn:E.
  - now rewrite group_fold_None in H.
  - constructor; [assumption | eapply IH; eassumption].
Qed.

End GroupingFacts.

(** X25. When no language is the name of a property every object
    inherits (nor a string of digits, which [Object.keys] would move to
    the front), grouping succeeds and partitions the repos by language
    ([null] and the empty string counting as ["Other"]): the keys are the
    languages, each once, in order of first appearance; the array under a
    key holds exactly the repos of that language, in their original
    order, and is never empty. *)
Theorem groupRepos_partition (all : list Raw.t) :
  Forall (fun raw => isInherited (langOf raw) = false) all ->
  plainLanguages all ->
  exists g,
    groupRepos all = Some g
    /\ map fst g = languagesOf all []
    /\ NoDup (map fst g)
    /\ (forall lang, reposOf g lang = reposIn lang all)
    /\ Forall (fun kv => exists r l, snd kv = Repos (r :: l)) g
    /\ (forall raw, In raw all -> In (toRepo raw) (reposOf g (langOf raw))).
Proof.
  intros Hall _.
  destruct (group_fold all [] (conj (NoDup_nil _) (Forall_nil _)) Hall)
    as (g & Hg & [Hnd Hv] & Hk & Hr).
  exists g. repeat split; auto.
  intros raw Hin. rewrite Hr. cbn [reposOf lookup app]. unfold reposIn.
  apply in_map, filter_In. split; [assumption | apply String.eqb_refl].
Qed.

Lemma groupRepos_partition_witness :
  exists g,
    groupRepos (pagesTo smallAccount 1) = Some g
    /\ map fst g = ["JavaScript"; "Other"]%string.
Proof.
  destruct (groupRepos_partition (pagesTo smallAccount 1))
    as (g & Hg & Hk & _).
  - repeat constructor.
  - repeat constructor.
  - exists g. split; [exact Hg | exact Hk].
Defined.

(** X26. The cities of a grouping made by the hook (no language being a
    string of digits): one city per language of the fetched repos, in
    order of first appearance, holding exactly the repos of that
    language; none of them is empty, and every city has at least one
    building, whatever the draws. *)
Theorem cities_of_grouping (rnd : nat -> R) (all : list Raw.t)
    (g : RepoGroup) (s : nat) :
  groupRepos all = Some g ->
  plainLanguages all ->
  let cities := fst (cityData rnd g s) in
  map language cities = languagesOf all []
  /\ Forall (fun city =>
               repos city = reposIn (language city) all
               /\ repos city <> []
               /\ buildingPositions city <> []) cities.
Proof.
  intros Hg _ cities.
  pose proof (groupRepos_Some all g Hg) as Hall.
  destruct (group_fold all [] (conj (NoDup_nil _) (Forall_nil _)) Hall)
    as (g' & Hg' & [Hnd Hv] & Hk & Hr).
  assert (E : Some g' = Some g) by (rewrite <- Hg', <- Hg; reflexivity).
  injection E as ->.
  cbn [map app] in Hk.
  split; [unfold cities; now rewrite cityData_languages |].
  assert (Hkeys : Forall (fun city => In (language city) (map fst g)) cities).
  { apply Forall_forall. intros city Hc.
    rewrite <- (cityData_languages rnd g s). now apply in_map. }
  assert (Hbuilt : Forall (fun city =>
            repos city = reposOf g (language city)
            /\ (repos city <> [] -> buildingPositions city <> [])) cities).
  { unfold cities, cityData. apply mapCities_Forall. intros lang i s'.
    destruct (buildCity_spec rnd g lang i s') as (Hl & Hrep & _ & Hbp).
    split; [now rewrite Hl |].
    intros Hne. rewrite Hbp.
    destruct (generateClusterPositions_head rnd (length (repos (fst (buildCity rnd g lang i s'))))
                (centerX (fst (buildCity rnd g lang i s')))
                (centerZ (fst (buildCity rnd g lang i s')))
                (clusterRadius (fst (buildCity rnd g lang i s'))) (Fin 5)
                (S (S (S s')))) as [rest Hrest].
    - destruct (repos (fst (buildCity rnd g lang i s'))); [congruence | simpl; lia].
    - rewrite Hrest. discriminate. }
  apply Forall_forall. intros city Hc.
  rewrite Forall_forall in Hkeys, Hbuilt.
  destruct (Hbuilt city Hc) as [Hrep Hbp]. specialize (Hkeys city Hc).
  assert (Hne : repos city <> []).
  { rewrite Hrep. apply in_map_iff in Hkeys as ([k v] & Hfst & Hin).
    cbn [fst] in Hfst. subst k.
    rewrite Forall_forall in Hv. destruct (Hv _ Hin) as (r & l & Hrl).
    cbn [snd] in Hrl. subst v.
    unfold reposOf.
    assert (Hlook : lookup g (language city) = Repos (r :: l)).
    { clear -Hnd Hin. induction g as [|[k v] g IHg]; [destruct Hin |].
      cbn [lookup]. cbn [map fst] in Hnd. inversion Hnd as [|? ? Hnot Hnd']; subst.
      destruct Hin as [Heq | Hin].
      - injection Heq as -> ->. now rewrite String.eqb_refl.
      - destruct (String.eqb_spec k (language city)) as [-> | Hk].
        + exfalso. apply Hnot. apply in_map_iff.
          now exists (language city, Repos (r :: l)).
        + now apply IHg. }
    rewrite Hlook. discriminate. }
  repeat split; auto. rewrite Hrep. apply Hr.
Qed.

Lemma cities_of_grouping_witness :
  map language (fst (cityData zeroDraws
                       [("JavaScript"%string,
                         Repos [toRepo (sampleRaw "portfolio" (Some "JavaScript"%string));
                                toRepo (sampleRaw "site" (Some "JavaScript"%string))]);
                        ("Other"%string, Repos [toRepo (sampleRaw "notes" None)])]
                       0%nat))
  = languagesOf (pagesTo smallAccount 1) [].
Proof.
  refine (proj1 (cities_of_grouping zeroDraws (pagesTo smallAccount 1) _ 0%nat
                   _ _)).
  - reflexivity.
  - repeat constructor.
Defined.

(** X27. An account without repos: the first page is empty, the load
    succeeds with an empty grouping and [App] shows a gallery with no
    city, no road, no obstacle and no tree; no fragment of the ground is
    painted as road, no draw is made, and only the edge of the plane can
    stop the car. *)
Theorem empty_portfolio (username : string) (api : nat -> Response)
    (fuel : nat) (rnd : nat -> R) (s : nat) :
  username <> ""%string -> api 1%nat = Page [] -> (1 <= fuel)%nat ->
  useGitHubRepos username api fuel = Some (mkHook [] false None)
  /\ App (mkHook [] false None) = GalleryView []
  /\ cityData rnd [] s = ([], s)
  /\ roadSegments [] = []
  /\ obstaclesAndTrees rnd [] s = (([], []), s)
  /\ (forall P, onRoad P [] = false)
  /\ (forall proposed planeRadius,
        collision proposed [] planeRadius = outOfBounds proposed planeRadius).
Proof.
  intros Hname Hpage Hfuel.
  split; [| repeat split].
  - unfold useGitHubRepos.
    replace (String.eqb username "") with false
      by (symmetry; now apply String.eqb_neq).
    destruct fuel as [|fuel]; [lia |].
    cbn [fetchLoop]. rewrite Hpage. reflexivity.
  - intros proposed R. unfold collision. cbn [hitsObstacle].
    now destruct (outOfBounds proposed R).
Qed.

Lemma empty_portfolio_witness :
  useGitHubRepos "whatiskeptiname" emptyAccount 1 = Some (mkHook [] false None).
Proof.
  refine (proj1 (empty_portfolio "whatiskeptiname" emptyAccount 1 zeroDraws
                   0%nat _ eq_refl _)).
  - discriminate.
  - lia.
Defined.
